(** * Sales-Dash: the county scoring pipeline of [app.py]

    A shallow embedding of the scoring core of the dashboard
    ([id_to_fips], the derived columns of [load_census_data], the two left
    merges of [main], and [calculate_scores]) together with the properties
    the specification states about it.

    Conventions of the embedding.
    - A numeric cell of a data frame is a [cell]: missing ([NA], standing
      for both [NaN] and [pd.NA]), an infinity, or a finite number.  Finite
      numbers carry exact rationals, without rounding; the properties
      stated on them are those that rounding keeps.  Module [F64] runs the
      same computation in binary64, for what depends on rounding.
    - A data frame is a list of rows, a column is the list of one field.
    - Python exceptions are values of [exn], carried by [result]. *)

From Stdlib Require Import Ascii String QArith Lqa Lia.
From Stdlib Require PrimFloat Uint63.
From stdpp Require Import base option list strings gmap.

Open Scope string_scope.

(** ** Exceptions *)

Inductive exn : Type :=
| KeyError (key : string)
| ValueError.

Inductive result (A : Type) : Type :=
| Ok (a : A)
| Raise (e : exn).
Arguments Ok {A} a.
Arguments Raise {A} e.

Definition bind {A B : Type} (r : result A) (k : A → result B) : result B :=
  match r with
  | Ok a => k a
  | Raise e => Raise e
  end.

(** ** The identifier normalizer, [id_to_fips] *)

Module Fips.

(** The dictionary literal of [id_to_fips]. *)
Definition state_abbr_to_fips : gmap string string :=
  list_to_map
    [ ("AL", "01"); ("AK", "02"); ("AZ", "04"); ("AR", "05"); ("CA", "06");
      ("CO", "08"); ("CT", "09"); ("DE", "10"); ("FL", "12"); ("GA", "13");
      ("HI", "15"); ("ID", "16"); ("IL", "17"); ("IN", "18"); ("IA", "19");
      ("KS", "20"); ("KY", "21"); ("LA", "22"); ("ME", "23"); ("MD", "24");
      ("MA", "25"); ("MI", "26"); ("MN", "27"); ("MS", "28"); ("MO", "29");
      ("MT", "30"); ("NE", "31"); ("NV", "32"); ("NH", "33"); ("NJ", "34");
      ("NM", "35"); ("NY", "36"); ("NC", "37"); ("ND", "38"); ("OH", "39");
      ("OK", "40"); ("OR", "41"); ("PA", "42"); ("RI", "44"); ("SC", "45");
      ("SD", "46"); ("TN", "47"); ("TX", "48"); ("UT", "49"); ("VT", "50");
      ("VA", "51"); ("WA", "53"); ("WV", "54"); ("WI", "55"); ("WY", "56") ].

(** [s.split(sep)] for a one-character separator: the string is cut at
    every occurrence of [sep]; empty pieces are kept. *)
Fixpoint split (sep : ascii) (s : string) : list string :=
  match s with
  | EmptyString => [EmptyString]
  | String c s' =>
      if Ascii.eqb c sep then EmptyString :: split sep s'
      else match split sep s' with
           | [] => [String c EmptyString]
           | p :: ps => String c p :: ps
           end
  end.

(** Number of occurrences of the separator, [s.count(sep)]. *)
Fixpoint count (sep : ascii) (s : string) : nat :=
  match s with
  | EmptyString => 0
  | String c s' => (if Ascii.eqb c sep then 1 else 0) + count sep s'
  end.

Fixpoint zeros (n : nat) : string :=
  match n with
  | O => EmptyString
  | S n' => String "0" (zeros n')
  end.

(** [s.zfill(width)]: the string is returned as it is when it is already
    [width] long; otherwise zeros are inserted on the left, after a
    leading sign character. *)
Definition zfill (width : nat) (s : string) : string :=
  if (width <=? String.length s)%nat then s
  else
    let fill := zeros (width - String.length s) in
    match s with
    | String c s' =>
        if Ascii.eqb c "+" || Ascii.eqb c "-" then String c (fill +:+ s')
        else fill +:+ s
    | EmptyString => fill
    end.

(** The tuple assignment [state_abbr, county_code = id_str.split("-")]. *)
Definition unpack2 (parts : list string) : result (string * string) :=
  match parts with
  | [a; b] => Ok (a, b)
  | _ => Raise ValueError
  end.

(** The subscript [state_abbr_to_fips[state_abbr]]. *)
Definition getitem (d : gmap string string) (k : string) : result string :=
  match d !! k with
  | Some v => Ok v
  | None => Raise (KeyError k)
  end.

Definition id_to_fips (id_str : string) : result string :=
  bind (unpack2 (split "-" id_str)) (λ '(state_abbr, county_code),
  bind (getitem state_abbr_to_fips state_abbr) (λ state_fips,
  Ok (state_fips +:+ zfill 3 county_code))).

(** The part of an identifier before its first separator. *)
Definition region_of (id_str : string) : string :=
  hd EmptyString (split "-" id_str).

End Fips.

(** ** Cells and their arithmetic *)

(** A numeric cell.  [Inf true] is minus infinity, [Inf false] plus
    infinity. *)
Inductive cell : Type :=
| NA
| Inf (neg : bool)
| Num (q : Q).

Module Cell.

Definition isna (c : cell) : bool :=
  match c with NA => true | _ => false end.

Definition notna (c : cell) : bool := negb (isna c).

Definition Qltb (a b : Q) : bool := negb (Qle_bool b a).

(** Arithmetic of float64 cells, as numpy carries it out under pandas:
    nothing raises; a missing operand gives a missing result; a finite
    number divided by zero is an infinity, and the undefined forms
    (0/0, inf-inf, 0*inf, inf/inf) are missing.  Integer columns divide
    the same way ([/] is true division), and in an object column, which
    [replace(0, pd.NA)] may leave behind, [pd.NA] absorbs every
    operation as [NaN] does. *)
Definition neg (a : cell) : cell :=
  match a with
  | NA => NA
  | Inf s => Inf (negb s)
  | Num x => Num (- x)
  end.

Definition add (a b : cell) : cell :=
  match a, b with
  | NA, _ | _, NA => NA
  | Inf s, Inf t => if Bool.eqb s t then Inf s else NA
  | Inf s, Num _ => Inf s
  | Num _, Inf t => Inf t
  | Num x, Num y => Num (x + y)
  end.

Definition sub (a b : cell) : cell := add a (neg b).

Definition mul (a b : cell) : cell :=
  match a, b with
  | NA, _ | _, NA => NA
  | Inf s, Inf t => Inf (xorb s t)
  | Inf s, Num y => if Qeq_bool y 0 then NA else Inf (xorb s (Qltb y 0))
  | Num x, Inf t => if Qeq_bool x 0 then NA else Inf (xorb (Qltb x 0) t)
  | Num x, Num y => Num (x * y)
  end.

Definition div (a b : cell) : cell :=
  match a, b with
  | NA, _ | _, NA => NA
  | Inf _, Inf _ => NA
  | Inf s, Num y => Inf (xorb s (Qltb y 0))
  | Num _, Inf _ => Num 0
  | Num x, Num y =>
      if Qeq_bool y 0
      then (if Qeq_bool x 0 then NA else Inf (Qltb x 0))
      else Num (x / y)
  end.

(** The order of the non-missing cells. *)
Definition ltb (a b : cell) : bool :=
  match a, b with
  | NA, _ | _, NA => false
  | Inf s, Inf t => s && negb t
  | Inf s, Num _ => s
  | Num _, Inf t => negb t
  | Num x, Num y => Qltb x y
  end.

Definition eqb (a b : cell) : bool :=
  match a, b with
  | Inf s, Inf t => Bool.eqb s t
  | Num x, Num y => Qeq_bool x y
  | _, _ => false
  end.

(** [Series.replace(0, pd.NA)]. *)
Definition replace_zero_na (a : cell) : cell :=
  match a with
  | Num x => if Qeq_bool x 0 then NA else a
  | _ => a
  end.

(** Equality of cells up to the equality of rationals. *)
Inductive eq : cell → cell → Prop :=
| eq_NA : eq NA NA
| eq_Inf s : eq (Inf s) (Inf s)
| eq_Num x y : (x == y)%Q → eq (Num x) (Num y).

End Cell.

#[export] Instance cell_equiv : Equiv cell := Cell.eq.

(** ** Percentile ranks, [Series.rank(pct=True)] *)

Module Rank.

(** The ranking population: the non-missing entries of the column. *)
Definition valid (col : list cell) : list cell := List.filter Cell.notna col.

Definition n_less (col : list cell) (v : cell) : nat :=
  length (List.filter (λ c, Cell.ltb c v) (valid col)).

Definition n_equal (col : list cell) (v : cell) : nat :=
  length (List.filter (λ c, Cell.eqb c v) (valid col)).

Definition Qsum (l : list Q) : Q := foldr Qplus 0%Q l.

(** A count or a position as a rational. *)
Definition Qn (n : nat) : Q := inject_Z (Z.of_nat n).

(** In the sorted column the entries equal to [v] occupy the positions
    [n_less + 1 .. n_less + n_equal] (counted from 1). *)
Definition tied_positions (col : list cell) (v : cell) : list Q :=
  Qn <$> seq (S (n_less col v)) (n_equal col v).

(** [method='average']: the mean of the tied positions. *)
Definition average_rank (col : list cell) (v : cell) : Q :=
  (Qsum (tied_positions col v) / Qn (n_equal col v))%Q.

(** [pct=True] divides by the number of non-missing entries;
    [na_option='keep'] leaves a missing entry missing. *)
Definition rank_of (col : list cell) (v : cell) : cell :=
  match v with
  | NA => NA
  | _ => Num (average_rank col v / Qn (length (valid col)))%Q
  end.

Definition rank_pct (col : list cell) : list cell := rank_of col <$> col.

End Rank.

(** ** [sklearn.preprocessing.MinMaxScaler] on one column *)

Module Scaler.

Definition has_inf (X : list cell) : bool :=
  existsb (λ c, match c with Inf _ => true | _ => false end) X.

Definition finite_or_na (c : cell) : Prop :=
  match c with Inf _ => False | _ => True end.

(** Input validation: at least one sample, no infinite entry; missing
    entries are let through. *)
Definition check_array (X : list cell) : result (list cell) :=
  match X with
  | [] => Raise ValueError
  | _ => if has_inf X then Raise ValueError else Ok X
  end.

Definition nanmin (X : list cell) : cell :=
  foldr (λ x acc, match x, acc with
                  | NA, _ => acc
                  | _, NA => x
                  | _, _ => if Cell.ltb x acc then x else acc
                  end) NA X.

Definition nanmax (X : list cell) : cell :=
  foldr (λ x acc, match x, acc with
                  | NA, _ => acc
                  | _, NA => x
                  | _, _ => if Cell.ltb acc x then x else acc
                  end) NA X.

(** Ten machine epsilons of binary64, [10 * np.finfo(np.float64).eps]. *)
Definition ten_eps : Q := 10 * (1 # 4503599627370496).

(** [scale[scale < 10 * eps] = 1.0]: a column whose range is below ten
    machine epsilons counts as constant, and its range is replaced by 1
    before it divides. *)
Definition handle_zeros_in_scale (scale : cell) : cell :=
  match scale with
  | Num x => if Cell.Qltb x ten_eps then Num 1 else scale
  | _ => scale
  end.

Record MinMaxScaler : Type := {
  data_min_ : cell;
  data_max_ : cell;
  data_range_ : cell;
  scale_ : cell;
  min_ : cell
}.

(** The statistics [fit] computes, with the default
    [feature_range = (0, 1)]. *)
Definition partial_fit (X : list cell) : MinMaxScaler :=
  let data_min := nanmin X in
  let data_max := nanmax X in
  let data_range := Cell.sub data_max data_min in
  let scale := Cell.div (Cell.sub (Num 1) (Num 0)) (handle_zeros_in_scale data_range) in
  {| data_min_ := data_min;
     data_max_ := data_max;
     data_range_ := data_range;
     scale_ := scale;
     min_ := Cell.sub (Num 0) (Cell.mul data_min scale) |}.

Definition fit (X : list cell) : result MinMaxScaler :=
  bind (check_array X) (λ X, Ok (partial_fit X)).

(** [transform]: [X *= scale_; X += min_]. *)
Definition transform_cell (m : MinMaxScaler) (x : cell) : cell :=
  Cell.add (Cell.mul x (scale_ m)) (min_ m).

Definition transform (m : MinMaxScaler) (X : list cell) : result (list cell) :=
  bind (check_array X) (λ X, Ok (transform_cell m <$> X)).

Definition fit_transform (X : list cell) : result (list cell) :=
  bind (fit X) (λ m, transform m X).

End Scaler.

(** ** The data frames of the pipeline *)

(** A row of the census frame once [pd.to_numeric(..., errors='coerce')]
    has turned the eight variables into numeric cells. *)
Record census_row : Type := {
  NAME : string;
  state : string;
  county : string;
  median_household_income : cell;
  median_year_built : cell;
  total_population : cell;
  total_occupied_units : cell;
  owner_occupied_units : cell;
  total_housing_units : cell;
  sf_detached : cell;
  sf_attached : cell
}.

(** A row of the frame [load_census_data] returns. *)
Record county_row : Type := {
  census : census_row;
  fips : string;
  homeownership_rate : cell;
  sf_ratio : cell
}.

(** A row after the two merges of [main]. *)
Record joined_row : Type := {
  dem : county_row;
  avg_precipitation : cell;
  avg_temperature : cell
}.

(** A row of the frame [calculate_scores] returns. *)
Record scored_row : Type := {
  joined : joined_row;
  home_age : cell;
  adj_population : cell;
  rank_income : cell;
  rank_home_age : cell;
  rank_population : cell;
  rank_adj_population : cell;
  rank_homeownership : cell;
  rank_avg_precipitation : cell;
  rank_avg_temperature : cell;
  rank_sf_ratio : cell;
  pest_sales_score_raw : cell;
  pest_sales_score : cell
}.

Module Pipeline.

(** *** [load_census_data], from the numeric frame on *)

Definition derive (r : census_row) : county_row :=
  {| census := r;
     fips := state r +:+ county r;
     homeownership_rate :=
       Cell.div (owner_occupied_units r) (total_occupied_units r);
     sf_ratio :=
       Cell.div (Cell.add (sf_detached r) (sf_attached r))
                (Cell.replace_zero_na (total_housing_units r)) |}.

Definition load_census_data (rows : list census_row) : list county_row :=
  derive <$> rows.

(** *** [load_weather_data] *)

(** A weather file: its [ID] and [Value] columns. *)
Definition weather_csv : Type := list (string * cell).

(** A weather frame: its [fips] column and its value column. *)
Definition weather : Type := list (string * cell).

Fixpoint apply_id_to_fips (csv : weather_csv) : result weather :=
  match csv with
  | [] => Ok []
  | (id, v) :: rest =>
      bind (Fips.id_to_fips id) (λ k,
      bind (apply_id_to_fips rest) (λ rest', Ok ((k, v) :: rest')))
  end.

Definition load_weather_data (avg_prec avg_temp : weather_csv)
  : result (weather * weather) :=
  bind (apply_id_to_fips avg_prec) (λ precip,
  bind (apply_id_to_fips avg_temp) (λ temp, Ok (precip, temp))).

(** *** [DataFrame.merge(right, on="fips", how="left")] *)

(** The rows of [right] whose key is [k], in the order of [right]. *)
Definition matches (k : string) (right : weather) : list cell :=
  snd <$> List.filter (λ kv, String.eqb (fst kv) k) right.

(** Every left row is kept, in order: once per matching right row, or
    once with a missing value when no right row matches. *)
Definition merge_left {A : Type} (key : A → string)
    (left : list A) (right : weather) : list (A * cell) :=
  left ≫= (λ l, match matches (key l) right with
                 | [] => [(l, NA)]
                 | vs => (λ v, (l, v)) <$> vs
                 end).

Definition merge_weather (df : list county_row) (precip temp : weather)
  : list joined_row :=
  (λ '(l, p, t), {| dem := l; avg_precipitation := p; avg_temperature := t |})
    <$> merge_left (λ lp, fips (fst lp)) (merge_left fips df precip) temp.

(** *** [calculate_scores] *)

Definition home_age_of (r : joined_row) : cell :=
  Cell.sub (Num 2025) (median_year_built (census (dem r))).

Definition adj_population_of (r : joined_row) : cell :=
  Cell.mul (total_population (census (dem r))) (sf_ratio (dem r)).

(** The expression assigned to [pest_sales_score_raw]. *)
Definition raw_score (rank_home_age rank_avg_precipitation rank_avg_temperature
    rank_sf_ratio rank_income rank_adj_population rank_homeownership : cell)
  : cell :=
  Cell.add (Cell.add (Cell.add (Cell.add (Cell.add (Cell.add
    (Cell.mul rank_home_age (Num 0.125))
    (Cell.mul rank_avg_precipitation (Num 0.125)))
    (Cell.mul rank_avg_temperature (Num 0.125)))
    (Cell.mul rank_sf_ratio (Num 0.25)))
    (Cell.mul rank_income (Num 0.125)))
    (Cell.mul rank_adj_population (Num 0.50)))
    (Cell.mul rank_homeownership (Num 0.05)).

(** The frame with every column up to [pest_sales_score_raw]; its last
    field still holds a placeholder. *)
Definition rank_row (df : list joined_row) (r : joined_row) : scored_row :=
  let col (f : joined_row → cell) := f <$> df in
  let r_income := Rank.rank_of (col (λ x, median_household_income (census (dem x))))
                               (median_household_income (census (dem r))) in
  let r_home_age := Rank.rank_of (col home_age_of) (home_age_of r) in
  let r_population := Rank.rank_of (col (λ x, total_population (census (dem x))))
                                   (total_population (census (dem r))) in
  let r_adj_population := Rank.rank_of (col adj_population_of) (adj_population_of r) in
  let r_homeownership := Rank.rank_of (col (λ x, homeownership_rate (dem x)))
                                      (homeownership_rate (dem r)) in
  let r_precipitation := Rank.rank_of (col avg_precipitation) (avg_precipitation r) in
  let r_temperature := Rank.rank_of (col avg_temperature) (avg_temperature r) in
  let r_sf_ratio := Rank.rank_of (col (λ x, sf_ratio (dem x))) (sf_ratio (dem r)) in
  {| joined := r;
     home_age := home_age_of r;
     adj_population := adj_population_of r;
     rank_income := r_income;
     rank_home_age := r_home_age;
     rank_population := r_population;
     rank_adj_population := r_adj_population;
     rank_homeownership := r_homeownership;
     rank_avg_precipitation := r_precipitation;
     rank_avg_temperature := r_temperature;
     rank_sf_ratio := r_sf_ratio;
     pest_sales_score_raw :=
       raw_score r_home_age r_precipitation r_temperature r_sf_ratio
                 r_income r_adj_population r_homeownership;
     pest_sales_score := NA |}.

Arguments rank_row : simpl never.

(** The column [pest_sales_score_raw]. *)
Definition raw_column (df : list joined_row) : list cell :=
  pest_sales_score_raw <$> (rank_row df <$> df).

Definition set_score (r : scored_row) (s : cell) : scored_row :=
  {| joined := joined r;
     home_age := home_age r;
     adj_population := adj_population r;
     rank_income := rank_income r;
     rank_home_age := rank_home_age r;
     rank_population := rank_population r;
     rank_adj_population := rank_adj_population r;
     rank_homeownership := rank_homeownership r;
     rank_avg_precipitation := rank_avg_precipitation r;
     rank_avg_temperature := rank_avg_temperature r;
     rank_sf_ratio := rank_sf_ratio r;
     pest_sales_score_raw := pest_sales_score_raw r;
     pest_sales_score := s |}.

Definition calculate_scores (df : list joined_row) : result (list scored_row) :=
  let ranked := rank_row df <$> df in
  bind (Scaler.fit_transform (raw_column df)) (λ scores,
  Ok (zip_with set_score ranked scores)).

(** *** The data path of [main] after its input is there

    The arguments are the rows fetched by [load_census_data] and the two
    files as [pd.read_csv] returns them; the errors of the fetch and of
    the reads come before this function and are not part of it. *)

Definition main (rows : list census_row) (avg_prec avg_temp : weather_csv)
  : result (list scored_row) :=
  let df := load_census_data rows in
  bind (load_weather_data avg_prec avg_temp) (λ '(precip, temp),
  calculate_scores (merge_weather df precip temp)).

End Pipeline.

(** ** The weighted sum, as the specification words it *)

Module Spec.

Inductive indicator : Type :=
| Income
| HomeAge
| Population
| AdjustedPopulation
| Homeownership
| Precipitation
| Temperature
| SingleFamilyRatio.

#[export] Instance indicator_eq_dec : EqDecision indicator.
Proof. solve_decision. Defined.

(** The eight percentile ranks of a row. *)
Definition indicators : list indicator :=
  [Income; HomeAge; Population; AdjustedPopulation; Homeownership;
   Precipitation; Temperature; SingleFamilyRatio].

Definition percentile_rank (r : scored_row) (k : indicator) : cell :=
  match k with
  | Income => rank_income r
  | HomeAge => rank_home_age r
  | Population => rank_population r
  | AdjustedPopulation => rank_adj_population r
  | Homeownership => rank_homeownership r
  | Precipitation => rank_avg_precipitation r
  | Temperature => rank_avg_temperature r
  | SingleFamilyRatio => rank_sf_ratio r
  end.

(** The fixed weight vector. *)
Definition weight_vector : list (indicator * Q) :=
  [(HomeAge, 0.125); (Precipitation, 0.125); (Temperature, 0.125);
   (SingleFamilyRatio, 0.25); (Income, 0.125); (AdjustedPopulation, 0.50);
   (Homeownership, 0.05)]%Q.

(** The weight of an indicator: its entry in the vector, and 0 for an
    indicator the vector does not list. *)
Definition weight_of (k : indicator) : Q :=
  match List.find (λ kw, bool_decide (fst kw = k)) weight_vector with
  | Some kw => snd kw
  | None => 0
  end.

(** The sum over the entries of the weight vector. *)
Definition weighted_sum (r : scored_row) : cell :=
  foldr (λ kw acc, Cell.add (Cell.mul (percentile_rank r (fst kw)) (Num (snd kw))) acc)
        (Num 0) weight_vector.

(** The sum over all eight ranks, each with its weight. *)
Definition weighted_sum_all (r : scored_row) : cell :=
  foldr (λ k acc, Cell.add (Cell.mul (percentile_rank r k) (Num (weight_of k))) acc)
        (Num 0) indicators.

End Spec.

(** ** The state filter of [main] *)

Module View.

(** The dictionary literal [state_fips_to_name] of [main]. *)
Definition state_fips_to_name : gmap string string :=
  list_to_map
    [ ("01", "Alabama"); ("02", "Alaska"); ("04", "Arizona");
      ("05", "Arkansas"); ("06", "California"); ("08", "Colorado");
      ("09", "Connecticut"); ("10", "Delaware"); ("12", "Florida");
      ("13", "Georgia"); ("15", "Hawaii"); ("16", "Idaho");
      ("17", "Illinois"); ("18", "Indiana"); ("19", "Iowa");
      ("20", "Kansas"); ("21", "Kentucky"); ("22", "Louisiana");
      ("23", "Maine"); ("24", "Maryland"); ("25", "Massachusetts");
      ("26", "Michigan"); ("27", "Minnesota"); ("28", "Mississippi");
      ("29", "Missouri"); ("30", "Montana"); ("31", "Nebraska");
      ("32", "Nevada"); ("33", "New Hampshire"); ("34", "New Jersey");
      ("35", "New Mexico"); ("36", "New York"); ("37", "North Carolina");
      ("38", "North Dakota"); ("39", "Ohio"); ("40", "Oklahoma");
      ("41", "Oregon"); ("42", "Pennsylvania"); ("44", "Rhode Island");
      ("45", "South Carolina"); ("46", "South Dakota"); ("47", "Tennessee");
      ("48", "Texas"); ("49", "Utah"); ("50", "Vermont"); ("51", "Virginia");
      ("53", "Washington"); ("54", "West Virginia"); ("55", "Wisconsin");
      ("56", "Wyoming") ].

(** The column [state_name]: [df['state'].map(state_fips_to_name)], which
    is missing where the state code is not a key. *)
Definition state_name (r : scored_row) : option string :=
  state_fips_to_name !! state (census (dem (joined r))).

(** The comparison [df['state_name'] == selected_state], false on a
    missing name. *)
Definition name_is (selected_state : string) (r : scored_row) : bool :=
  match state_name r with
  | Some n => String.eqb n selected_state
  | None => false
  end.

(** [filtered_df], for the state picked in the select box. *)
Definition filtered_df (selected_state : string) (df : list scored_row)
  : list scored_row :=
  if negb (String.eqb selected_state "All States")
  then List.filter (name_is selected_state) df
  else df.

End View.

(** ** The scores in binary64

    The modules above carry exact rationals.  This one carries out the
    arithmetic of [load_census_data] and [calculate_scores] as the
    program does, in IEEE binary64 with [NaN] for a missing value, on the
    same frames; it serves where a property depends on rounding. *)

Module F64.
Import PrimFloat.
#[local] Open Scope float_scope.
#[local] Set Warnings "-inexact-float".

Definition of_nat (n : nat) : float := of_uint63 (Uint63.of_Z (Z.of_nat n)).

Definition of_Z (z : Z) : float :=
  if (z <? 0)%Z then - of_uint63 (Uint63.of_Z (- z))
  else of_uint63 (Uint63.of_Z z).

(** The float of an input cell; exact for the whole numbers below 2^53
    in absolute value. *)
Definition of_cell (c : cell) : float :=
  match c with
  | NA => nan
  | Inf neg => if neg then neg_infinity else infinity
  | Num q => of_Z (Qnum q) / of_Z (Zpos (Qden q))
  end.

(** *** The derived columns, lines 38, 39, 76 and 77 *)

Definition replace_zero_na (x : float) : float := if x =? 0 then nan else x.

Definition homeownership_rate (c : census_row) : float :=
  of_cell (owner_occupied_units c) / of_cell (total_occupied_units c).

Definition sf_ratio (c : census_row) : float :=
  (of_cell (sf_detached c) + of_cell (sf_attached c))
  / replace_zero_na (of_cell (total_housing_units c)).

Definition home_age (r : joined_row) : float :=
  2025 - of_cell (median_year_built (census (dem r))).

Definition adj_population (r : joined_row) : float :=
  of_cell (total_population (census (dem r))) * sf_ratio (census (dem r)).

(** *** [Series.rank(pct=True)] *)

Definition valid (col : list float) : list float :=
  List.filter (λ x, negb (is_nan x)) col.

Definition n_less (col : list float) (v : float) : nat :=
  length (List.filter (λ c, c <? v) (valid col)).

Definition n_equal (col : list float) (v : float) : nat :=
  length (List.filter (λ c, c =? v) (valid col)).

(** The sum of the tied positions, an integer. *)
Definition sum_ranks (col : list float) (v : float) : nat :=
  sum_list (seq (S (n_less col v)) (n_equal col v)).

(** [sum_ranks / dups], then the division by the number of non-missing
    entries. *)
Definition rank_of (col : list float) (v : float) : float :=
  if is_nan v then nan
  else of_nat (sum_ranks col v) / of_nat (n_equal col v)
       / of_nat (length (valid col)).

(** *** The raw score, lines 88 to 96 *)

Definition raw_score (rank_home_age rank_avg_precipitation rank_avg_temperature
    rank_sf_ratio rank_income rank_adj_population rank_homeownership : float)
  : float :=
  rank_home_age * 0.125 +
  rank_avg_precipitation * 0.125 +
  rank_avg_temperature * 0.125 +
  rank_sf_ratio * 0.25 +
  rank_income * 0.125 +
  rank_adj_population * 0.50 +
  rank_homeownership * 0.05.

Definition pest_sales_score_raw (df : list joined_row) (r : joined_row) : float :=
  let rank (f : joined_row → float) := rank_of (f <$> df) (f r) in
  raw_score
    (rank home_age)
    (rank (λ x, of_cell (avg_precipitation x)))
    (rank (λ x, of_cell (avg_temperature x)))
    (rank (λ x, sf_ratio (census (dem x))))
    (rank (λ x, of_cell (median_household_income (census (dem x)))))
    (rank adj_population)
    (rank (λ x, homeownership_rate (census (dem x)))).

Definition raw_column (df : list joined_row) : list float :=
  pest_sales_score_raw df <$> df.

(** *** [MinMaxScaler], lines 98 and 99 *)

Definition is_infinite (x : float) : bool :=
  (x =? infinity) || (x =? neg_infinity).

Definition check_array (X : list float) : result (list float) :=
  match X with
  | [] => Raise ValueError
  | _ => if existsb is_infinite X then Raise ValueError else Ok X
  end.

Definition nanmin (X : list float) : float :=
  foldr (λ x acc, if is_nan x then acc
                  else if is_nan acc then x
                  else if x <? acc then x else acc) nan X.

Definition nanmax (X : list float) : float :=
  foldr (λ x acc, if is_nan x then acc
                  else if is_nan acc then x
                  else if acc <? x then x else acc) nan X.

(** [np.finfo(np.float64).eps]. *)
Definition eps : float := 0x1p-52.

Definition handle_zeros_in_scale (scale : float) : float :=
  if scale <? 10 * eps then 1 else scale.

Record MinMaxScaler : Type := {
  scale_ : float;
  min_ : float
}.

Definition partial_fit (X : list float) : MinMaxScaler :=
  let data_min := nanmin X in
  let data_max := nanmax X in
  let data_range := data_max - data_min in
  let scale := (1 - 0) / handle_zeros_in_scale data_range in
  {| scale_ := scale; min_ := 0 - data_min * scale |}.

(** [X *= scale_; X += min_]; nothing is clipped. *)
Definition transform_cell (m : MinMaxScaler) (x : float) : float :=
  x * scale_ m + min_ m.

Definition fit_transform (X : list float) : result (list float) :=
  bind (check_array X) (λ X, Ok (transform_cell (partial_fit X) <$> X)).

(** The columns [pest_sales_score_raw] and [pest_sales_score]. *)
Definition calculate_scores (df : list joined_row)
  : result (list (float * float)) :=
  bind (fit_transform (raw_column df)) (λ scores,
  Ok (zip (raw_column df) scores)).

End F64.

(** ** Notions used in the statements *)

(** A line of a weather file against the row of the weather frame made
    from it: the row has the key of the line's identifier and its
    value. *)
Definition keyed (line row : string * cell) : Prop :=
  Fips.id_to_fips (fst line) = Ok (fst row) ∧ snd row = snd line.

(** A count as binary64 holds it exactly: missing, or a whole number
    from 0 to below 2^53. *)
Definition is_count (c : cell) : Prop :=
  c = NA ∨ ∃ n : Z, (0 <= n < 2 ^ 53)%Z ∧ c = Num (inject_Z n).

(** ** Sample frames *)

Module Sample.

Definition row (name cty : string)
    (income year pop occupied owner units detached attached : Q) : census_row :=
  {| NAME := name; state := "01"; county := cty;
     median_household_income := Num income;
     median_year_built := Num year;
     total_population := Num pop;
     total_occupied_units := Num occupied;
     owner_occupied_units := Num owner;
     total_housing_units := Num units;
     sf_detached := Num detached;
     sf_attached := Num attached |}.

(** The two counties of the end-to-end scenario of the specification. *)
Definition county_A : census_row := row "A" "001" 50000 1990 1000 400 200 500 300 0.
Definition county_B : census_row := row "B" "003" 80000 2010 2000 800 600 900 700 0.

(** A county with the figures of [county_A] under another code. *)
Definition county_A' : census_row := row "A2" "005" 50000 1990 1000 400 200 500 300 0.

(** A county without housing units. *)
Definition county_empty : census_row := row "E" "007" 40000 1980 10 0 0 0 0 0.

(** A county whose owner-occupied count exceeds a zero occupied count. *)
Definition county_odd : census_row := row "O" "009" 40000 1980 10 0 5 20 10 0.

Definition avg_prec : Pipeline.weather_csv :=
  [("AL-1", Num 50); ("AL-3", Num 60); ("AL-5", Num 50)].
Definition avg_temp : Pipeline.weather_csv :=
  [("AL-1", Num 65); ("AL-3", Num 62); ("AL-5", Num 65)].

Definition precip : Pipeline.weather :=
  [("01001", Num 50); ("01003", Num 60); ("01005", Num 50)].
Definition temp : Pipeline.weather :=
  [("01001", Num 65); ("01003", Num 62); ("01005", Num 65)].

Definition frame (rows : list census_row) : list joined_row :=
  Pipeline.merge_weather (Pipeline.load_census_data rows) precip temp.

Definition frame_AB : list joined_row := frame [county_A; county_B].
Definition frame_twins : list joined_row := frame [county_A; county_A'].
Definition frame_all : list joined_row :=
  frame [county_A; county_B; county_empty; county_odd].



(** The scored frame of the two counties. *)
Definition scored_AB : list scored_row :=
  match Pipeline.calculate_scores frame_AB with
  | Ok out => out
  | Raise _ => []
  end.

End Sample.

(** * Properties *)

(** ** The order of cells *)

Section CellOrder.
Open Scope Q_scope.

Lemma Qltb_lt a b : Cell.Qltb a b = true ↔ a < b.
Proof.
  unfold Cell.Qltb. rewrite negb_true_iff.
  split.
  - intros H. apply Qnot_le_lt. intros Hle. apply Qle_bool_iff in Hle. congruence.
  - intros H. destruct (Qle_bool b a) eqn:E; [|done].
    apply Qle_bool_iff in E. lra.
Qed.

Lemma Qltb_ge a b : Cell.Qltb a b = false ↔ b <= a.
Proof.
  unfold Cell.Qltb. rewrite negb_false_iff. apply Qle_bool_iff.
Qed.

Lemma Qeqb_eq a b : Qeq_bool a b = true ↔ a == b.
Proof. apply Qeq_bool_iff. Qed.

Lemma Qeqb_neq a b : Qeq_bool a b = false ↔ ¬ a == b.
Proof.
  split.
  - intros H E. apply Qeq_bool_iff in E. congruence.
  - intros H. destruct (Qeq_bool a b) eqn:E; [|done].
    apply Qeq_bool_iff in E. done.
Qed.

(** Exactly one of [c < v], [c = v], [v < c] holds between non-missing cells. *)
Lemma cell_trichotomy c v :
  Cell.notna c = true → Cell.notna v = true →
  (Cell.ltb c v = true ∧ Cell.eqb c v = false ∧ Cell.ltb v c = false) ∨
  (Cell.ltb c v = false ∧ Cell.eqb c v = true ∧ Cell.ltb v c = false) ∨
  (Cell.ltb c v = false ∧ Cell.eqb c v = false ∧ Cell.ltb v c = true).
Proof.
  destruct c as [|s|x], v as [|t|y]; simpl; try discriminate; intros _ _.
  - destruct s, t; simpl; tauto.
  - destruct s; simpl; tauto.
  - destruct t; simpl; tauto.
  - destruct (Qlt_le_dec x y) as [H|H].
    + left. rewrite (proj2 (Qltb_lt x y) H).
      rewrite (proj2 (Qeqb_neq x y)) by lra.
      rewrite (proj2 (Qltb_ge y x)) by lra. done.
    + destruct (Qlt_le_dec y x) as [H'|H'].
      * right; right. rewrite (proj2 (Qltb_lt y x) H').
        rewrite (proj2 (Qeqb_neq x y)) by lra.
        rewrite (proj2 (Qltb_ge x y)) by lra. done.
      * right; left. rewrite (proj2 (Qeqb_eq x y)) by lra.
        rewrite (proj2 (Qltb_ge x y)) by lra.
        rewrite (proj2 (Qltb_ge y x)) by lra. done.
Qed.

Lemma cell_eqb_refl v : Cell.notna v = true → Cell.eqb v v = true.
Proof.
  destruct v as [|s|x]; simpl; try done.
  - intros _. by destruct s.
  - intros _. apply Qeqb_eq. reflexivity.
Qed.

Lemma cell_eqb_notna v w : Cell.eqb v w = true → Cell.notna v = true ∧ Cell.notna w = true.
Proof. destruct v, w; simpl; try done. Qed.

Lemma cell_eqb_ltb_l c v w : Cell.eqb v w = true → Cell.ltb c v = Cell.ltb c w.
Proof.
  destruct v as [|s|x], w as [|t|y]; simpl; try done.
  - intros H. apply Bool.eqb_prop in H. by subst.
  - intros H. apply Qeqb_eq in H. destruct c as [|r|z]; simpl; try done.
    destruct (Cell.Qltb z x) eqn:E1, (Cell.Qltb z y) eqn:E2; try done.
    + apply Qltb_lt in E1. apply Qltb_ge in E2. lra.
    + apply Qltb_lt in E2. apply Qltb_ge in E1. lra.
Qed.

Lemma cell_eqb_eqb_l c v w : Cell.eqb v w = true → Cell.eqb c v = Cell.eqb c w.
Proof.
  destruct v as [|s|x], w as [|t|y]; simpl; try done.
  - intros H. apply Bool.eqb_prop in H. by subst.
  - intros H. apply Qeqb_eq in H. destruct c as [|r|z]; simpl; try done.
    destruct (Qeq_bool z x) eqn:E1, (Qeq_bool z y) eqn:E2; try done.
    + apply Qeqb_eq in E1. apply Qeqb_neq in E2. exfalso. apply E2. lra.
    + apply Qeqb_eq in E2. apply Qeqb_neq in E1. exfalso. apply E1. lra.
Qed.

End CellOrder.

(** ** Percentile ranks *)

Section RankFacts.
Open Scope Q_scope.
Import Rank.

Lemma Qn_S n : Qn (S n) == Qn n + 1.
Proof. unfold Qn. rewrite Nat2Z.inj_succ. unfold Z.succ. by rewrite inject_Z_plus. Qed.

Lemma Qn_le n m : (n ≤ m)%nat → Qn n <= Qn m.
Proof. intros H. unfold Qn. rewrite <- Zle_Qle. lia. Qed.

Lemma Qn_lt n m : (n < m)%nat → Qn n < Qn m.
Proof. intros H. unfold Qn. rewrite <- Zlt_Qlt. lia. Qed.

Lemma Qn_plus n m : Qn (n + m) == Qn n + Qn m.
Proof. unfold Qn. rewrite Nat2Z.inj_add. by rewrite inject_Z_plus. Qed.

Lemma Qdiv_2 x : x / 2 == x * (1 # 2).
Proof. field. Qed.

(** The sum of [k] consecutive positions that start after [a]. *)
Lemma Qsum_positions a k :
  Qsum (Qn <$> seq (S a) k)
  == Qn k * Qn a + Qn k * (Qn k + 1) / 2.
Proof.
  revert a. induction k as [|k IH]; intros a.
  - simpl. unfold Qn. simpl. field.
  - cbn [seq fmap list_fmap Qsum foldr]. fold (Qsum (Qn <$> seq (S (S a)) k)).
    rewrite IH. rewrite !Qn_S. field.
Qed.

Lemma average_rank_closed col v :
  (0 < n_equal col v)%nat →
  average_rank col v == Qn (n_less col v) + (Qn (n_equal col v) + 1) / 2.
Proof.
  intros Hk. unfold average_rank, tied_positions.
  rewrite Qsum_positions.
  assert (0 < Qn (n_equal col v)) by (apply (Qn_lt 0); done).
  field. lra.
Qed.

Lemma valid_notna col c : c ∈ valid col ↔ c ∈ col ∧ Cell.notna c = true.
Proof. unfold valid. rewrite !list_elem_of_In. apply filter_In. Qed.

Lemma valid_idemp col : valid (valid col) = valid col.
Proof.
  unfold valid. induction col as [|c col IH]; simpl; [done|].
  destruct (Cell.notna c) eqn:E; simpl; [rewrite E|]; by rewrite ?IH.
Qed.

(** Counting the entries below, equal to and above a value. *)
Lemma count_split (l : list cell) v :
  Forall (λ c, Cell.notna c = true) l → Cell.notna v = true →
  (length (List.filter (λ c, Cell.ltb c v) l)
   + length (List.filter (λ c, Cell.eqb c v) l)
   + length (List.filter (λ c, Cell.ltb v c) l) = length l)%nat.
Proof.
  intros Hl Hv. induction Hl as [|c l Hc Hl IH]; simpl; [done|].
  destruct (cell_trichotomy c v Hc Hv) as [(->&->&->)|[(->&->&->)|(->&->&->)]];
    simpl; lia.
Qed.

Lemma valid_Forall col : Forall (λ c, Cell.notna c = true) (valid col).
Proof. apply Forall_forall. intros c Hc. by apply valid_notna in Hc as [_ ?]. Qed.

Lemma n_less_equal_le col v :
  Cell.notna v = true → (n_less col v + n_equal col v ≤ length (valid col))%nat.
Proof.
  intros Hv. pose proof (count_split (valid col) v (valid_Forall col) Hv).
  unfold n_less, n_equal. lia.
Qed.

Lemma filter_length_pos {A} (f : A → bool) (l : list A) x :
  x ∈ l → f x = true → (0 < length (List.filter f l))%nat.
Proof.
  intros Hx Hf. assert (In x (List.filter f l)) as Hin.
  { apply filter_In. split; [by apply list_elem_of_In|done]. }
  destruct (List.filter f l); simpl in *; [done|lia].
Qed.

Lemma n_equal_pos col v :
  v ∈ col → Cell.notna v = true → (0 < n_equal col v)%nat.
Proof.
  intros Hin Hv. unfold n_equal.
  apply (filter_length_pos _ _ v); [by apply valid_notna|by apply cell_eqb_refl].
Qed.

Lemma rank_of_Num col v :
  Cell.notna v = true →
  rank_of col v = Num (average_rank col v / Qn (length (valid col))).
Proof. destruct v; simpl; done. Qed.

Lemma rank_of_isna col v : Cell.isna (rank_of col v) = Cell.isna v.
Proof. by destruct v. Qed.

(** A rank lies in (0, 1]. *)
Lemma average_rank_bounds col v :
  v ∈ col → Cell.notna v = true →
  0 < average_rank col v / Qn (length (valid col)) <= 1.
Proof.
  intros Hin Hv.
  pose proof (n_equal_pos col v Hin Hv) as Hk.
  pose proof (n_less_equal_le col v Hv) as Hle.
  rewrite (average_rank_closed col v Hk), Qdiv_2.
  assert (1 <= Qn (n_equal col v)) as Hk1 by (apply (Qn_le 1); lia).
  assert (0 <= Qn (n_less col v)) as Ha0 by (apply (Qn_le 0); lia).
  apply Qn_le in Hle. rewrite Qn_plus in Hle.
  assert (0 < Qn (length (valid col))) as HN by lra.
  split.
  - apply Qlt_shift_div_l; [done|]. lra.
  - apply Qle_shift_div_r; [done|]. lra.
Qed.

End RankFacts.

Section RankMore.
Open Scope list_scope.
Open Scope Q_scope.
Import Rank.

Lemma filter_none {A} (f : A → bool) (l : list A) :
  (∀ x, x ∈ l → f x = false) → List.filter f l = [].
Proof.
  induction l as [|x l IH]; intros H; simpl; [done|].
  rewrite (H x) by apply list_elem_of_here.
  apply IH. intros y Hy. apply H. by apply list_elem_of_further.
Qed.

Lemma filter_all {A} (f : A → bool) (l : list A) :
  (∀ x, x ∈ l → f x = true) → List.filter f l = l.
Proof.
  induction l as [|x l IH]; intros H; simpl; [done|].
  rewrite (H x) by apply list_elem_of_here.
  f_equal. apply IH. intros y Hy. apply H. by apply list_elem_of_further.
Qed.

(** The rank of a maximum that [n_equal] entries share. *)
Lemma rank_of_max col v :
  v ∈ col → Cell.notna v = true →
  (∀ w, w ∈ col → Cell.ltb v w = false) →
  average_rank col v / Qn (length (valid col))
  == 1 - (Qn (n_equal col v) - 1) / (2 * Qn (length (valid col))).
Proof.
  intros Hin Hv Hmax.
  pose proof (n_equal_pos col v Hin Hv) as Hk.
  pose proof (count_split (valid col) v (valid_Forall col) Hv) as Hsplit.
  rewrite (filter_none (λ c, Cell.ltb v c)) in Hsplit.
  2:{ intros w Hw. apply Hmax. by apply valid_notna in Hw as [? _]. }
  simpl in Hsplit. rewrite Nat.add_0_r in Hsplit.
  fold (n_less col v) (n_equal col v) in Hsplit.
  rewrite (average_rank_closed col v Hk), <- Hsplit, Qn_plus.
  assert (0 < Qn (n_equal col v)) by (apply (Qn_lt 0); done).
  assert (0 <= Qn (n_less col v)) by (apply (Qn_le 0); lia).
  field. lra.
Qed.

Lemma valid_app l1 l2 : valid (l1 ++ l2) = valid l1 ++ valid l2.
Proof. unfold valid. apply List.filter_app. Qed.

(** An entry that every other non-missing entry is strictly below is
    tied with no other entry. *)
Lemma n_equal_strict_max (col : list cell) i v :
  col !! i = Some v → Cell.notna v = true →
  (∀ j w, j ≠ i → col !! j = Some w → Cell.notna w = true → Cell.ltb w v = true) →
  n_equal col v = 1%nat.
Proof.
  intros Hi Hv Hmax.
  assert (∀ l : list cell, (∀ w, w ∈ l → Cell.notna w = true → Cell.ltb w v = true) →
            List.filter (λ c, Cell.eqb c v) (valid l) = []) as Hnone.
  { intros l Hl. apply filter_none. intros w Hw. apply valid_notna in Hw as [Hw Hw'].
    destruct (cell_trichotomy w v Hw' Hv) as [(?&?&?)|[(E&?&?)|(E&?&?)]]; [done| |];
      rewrite (Hl w Hw Hw') in E; done. }
  rewrite <- (take_drop_middle col i v Hi).
  unfold n_equal. rewrite valid_app. simpl. unfold valid at 2. simpl. rewrite Hv.
  rewrite List.filter_app. simpl. rewrite (cell_eqb_refl v Hv).
  fold (valid (drop (S i) col)).
  rewrite !Hnone; [done| |].
  - intros w Hw. apply list_elem_of_lookup in Hw as [j Hj].
    rewrite lookup_drop in Hj. apply (Hmax (S i + j)%nat); [lia|done].
  - intros w Hw. apply list_elem_of_lookup in Hw as [j Hj].
    apply lookup_take_Some in Hj as [Hj Hlt]. apply (Hmax j); [lia|done].
Qed.

Lemma rank_of_strict_max (col : list cell) i v :
  col !! i = Some v → Cell.notna v = true →
  (∀ j w, j ≠ i → col !! j = Some w → Cell.notna w = true → Cell.ltb w v = true) →
  average_rank col v / Qn (length (valid col)) == 1.
Proof.
  intros Hi Hv Hmax.
  assert (v ∈ col) as Hin by (apply list_elem_of_lookup; eauto).
  rewrite rank_of_max; [|done|done|].
  - rewrite (n_equal_strict_max col i v Hi Hv Hmax).
    pose proof (n_equal_pos col v Hin Hv) as Hk.
    pose proof (n_less_equal_le col v Hv) as Hle.
    assert (0 < Qn (length (valid col))) by (apply (Qn_lt 0); lia).
    unfold Qn at 1. simpl. field. lra.
  - intros w Hw. apply list_elem_of_lookup in Hw as [j Hj].
    destruct (decide (j = i)) as [->|Hne].
    + rewrite Hi in Hj. injection Hj as <-.
      destruct (cell_trichotomy v v Hv Hv) as [(?&?&?)|[(?&?&?)|(?&?&?)]]; congruence.
    + destruct (Cell.notna w) eqn:Hw.
      * pose proof (Hmax j w Hne Hj Hw) as Hlt.
        destruct (cell_trichotomy w v Hw Hv) as [(?&?&?)|[(?&?&?)|(?&?&?)]]; congruence.
      * destruct w; try done. by destruct v.
Qed.

(** Tied entries have the same rank. *)
Lemma rank_of_tied col v w :
  Cell.eqb v w = true → rank_of col v = rank_of col w.
Proof.
  intros He. destruct (cell_eqb_notna v w He) as [Hv Hw].
  rewrite !rank_of_Num by done.
  unfold average_rank, tied_positions, n_less, n_equal.
  rewrite (List.filter_ext _ _ (λ c, cell_eqb_ltb_l c v w He)).
  rewrite (List.filter_ext _ _ (λ c, cell_eqb_eqb_l c v w He)).
  done.
Qed.

(** The rank is computed among the non-missing entries only. *)
Lemma rank_of_valid col v : rank_of (valid col) v = rank_of col v.
Proof.
  destruct v; [done| |]; unfold rank_of, average_rank, tied_positions, n_less, n_equal;
    by rewrite valid_idemp.
Qed.

Lemma valid_fmap_rank_of col' col :
  valid (rank_of col' <$> col) = rank_of col' <$> valid col.
Proof.
  unfold valid. induction col as [|c col IH]; csimpl; [done|].
  assert (Cell.notna (rank_of col' c) = Cell.notna c) as ->
    by (unfold Cell.notna; by rewrite rank_of_isna).
  destruct (Cell.notna c); csimpl; by rewrite IH.
Qed.

Lemma rank_pct_valid col : valid (rank_pct col) = rank_pct (valid col).
Proof.
  unfold rank_pct. rewrite valid_fmap_rank_of.
  apply list_fmap_ext. intros i c _. by rewrite rank_of_valid.
Qed.

Lemma rank_pct_lookup (col : list cell) i :
  rank_pct col !! i = rank_of col <$> col !! i.
Proof. unfold rank_pct. apply list_lookup_fmap. Qed.

End RankMore.

(** ** The scaler *)

Section ScalerFacts.
Open Scope list_scope.
Open Scope Q_scope.
Import Scaler.

Lemma has_inf_false X : has_inf X = false ↔ Forall finite_or_na X.
Proof.
  unfold has_inf. induction X as [|c X IH]; simpl.
  - split; [constructor|done].
  - rewrite orb_false_iff, IH, Forall_cons. destruct c; simpl; intuition done.
Qed.

Lemma check_array_ok X : X ≠ [] → Forall finite_or_na X → check_array X = Ok X.
Proof.
  intros Hne HX. apply has_inf_false in HX. unfold check_array.
  destruct X; [done|]. by rewrite HX.
Qed.

Lemma nanmin_spec X :
  Forall finite_or_na X →
  (nanmin X = NA ∧ ∀ x, Num x ∉ X) ∨
  (∃ m, nanmin X = Num m ∧ Num m ∈ X ∧ ∀ x, Num x ∈ X → m <= x).
Proof.
  induction 1 as [|c X Hc HX IH]; simpl.
  - left. split; [done|]. intros x Hx. by apply elem_of_nil in Hx.
  - destruct c as [| |x]; [|done|].
    + destruct IH as [[E Hall]|(m & E & Hin & Hle)].
      * left. split; [done|]. intros x Hx. apply elem_of_cons in Hx as [?|?]; [done|].
        by apply (Hall x).
      * right. exists m. split; [done|]. split; [by apply list_elem_of_further|].
        intros x Hx. apply elem_of_cons in Hx as [?|?]; [done|]. by apply Hle.
    + right. fold (nanmin X). destruct IH as [[E Hall]|(m & E & Hin & Hle)]; rewrite E.
      * exists x. split; [done|]. split; [apply list_elem_of_here|].
        intros y Hy. apply elem_of_cons in Hy as [Hy|Hy].
        -- injection Hy as ->. lra.
        -- by apply Hall in Hy.
      * simpl. destruct (Cell.Qltb x m) eqn:Hlt.
        -- apply Qltb_lt in Hlt. exists x. split; [done|]. split; [apply list_elem_of_here|].
           intros y Hy. apply elem_of_cons in Hy as [Hy|Hy].
           ++ injection Hy as ->. lra.
           ++ apply Hle in Hy. lra.
        -- apply Qltb_ge in Hlt. exists m. split; [done|].
           split; [by apply list_elem_of_further|].
           intros y Hy. apply elem_of_cons in Hy as [Hy|Hy].
           ++ by injection Hy as ->.
           ++ by apply Hle.
Qed.

Lemma nanmax_spec X :
  Forall finite_or_na X →
  (nanmax X = NA ∧ ∀ x, Num x ∉ X) ∨
  (∃ m, nanmax X = Num m ∧ Num m ∈ X ∧ ∀ x, Num x ∈ X → x <= m).
Proof.
  induction 1 as [|c X Hc HX IH]; simpl.
  - left. split; [done|]. intros x Hx. by apply elem_of_nil in Hx.
  - destruct c as [| |x]; [|done|].
    + destruct IH as [[E Hall]|(m & E & Hin & Hle)].
      * left. split; [done|]. intros x Hx. apply elem_of_cons in Hx as [?|?]; [done|].
        by apply (Hall x).
      * right. exists m. split; [done|]. split; [by apply list_elem_of_further|].
        intros x Hx. apply elem_of_cons in Hx as [?|?]; [done|]. by apply Hle.
    + right. fold (nanmax X). destruct IH as [[E Hall]|(m & E & Hin & Hle)]; rewrite E.
      * exists x. split; [done|]. split; [apply list_elem_of_here|].
        intros y Hy. apply elem_of_cons in Hy as [Hy|Hy].
        -- injection Hy as ->. lra.
        -- by apply Hall in Hy.
      * simpl. destruct (Cell.Qltb m x) eqn:Hlt.
        -- apply Qltb_lt in Hlt. exists x. split; [done|]. split; [apply list_elem_of_here|].
           intros y Hy. apply elem_of_cons in Hy as [Hy|Hy].
           ++ injection Hy as ->. lra.
           ++ apply Hle in Hy. lra.
        -- apply Qltb_ge in Hlt. exists m. split; [done|].
           split; [by apply list_elem_of_further|].
           intros y Hy. apply elem_of_cons in Hy as [Hy|Hy].
           ++ by injection Hy as ->.
           ++ by apply Hle.
Qed.

End ScalerFacts.

Section ScalerMore.
Open Scope list_scope.
Open Scope Q_scope.
Import Scaler.

Lemma fit_transform_ok X :
  X ≠ [] → Forall finite_or_na X →
  fit_transform X = Ok (transform_cell (partial_fit X) <$> X).
Proof.
  intros Hne HX. unfold fit_transform, fit, transform.
  rewrite (check_array_ok X Hne HX). done.
Qed.

Lemma transform_cell_NA sc : transform_cell sc NA = NA.
Proof. done. Qed.

Lemma ten_eps_pos : 0 < ten_eps.
Proof. reflexivity. Qed.

(** The transform of a finite entry when the column counts as constant. *)
Lemma transform_cell_constant X m M x :
  nanmin X = Num m → nanmax X = Num M → M - m < ten_eps →
  ∃ y, transform_cell (partial_fit X) (Num x) = Num y ∧ y == x - m.
Proof.
  intros Hmin Hmax Hlt. unfold transform_cell, partial_fit.
  cbn [scale_ min_]. rewrite Hmin, Hmax.
  cbn [Cell.sub Cell.neg Cell.add handle_zeros_in_scale].
  rewrite (proj2 (Qltb_lt (M + - m) ten_eps) Hlt).
  cbn [Cell.div]. change (Qeq_bool 1 0) with false.
  cbn [Cell.mul Cell.neg Cell.add].
  eexists. split; [done|]. field.
Qed.

(** The transform of a finite entry when the column has a spread. *)
Lemma transform_cell_spread X m M x :
  nanmin X = Num m → nanmax X = Num M → ten_eps <= M - m →
  ∃ y, transform_cell (partial_fit X) (Num x) = Num y ∧ y == (x - m) / (M - m).
Proof.
  intros Hmin Hmax Hge. pose proof ten_eps_pos as Hpos.
  unfold transform_cell, partial_fit.
  cbn [scale_ min_]. rewrite Hmin, Hmax.
  cbn [Cell.sub Cell.neg Cell.add handle_zeros_in_scale].
  assert (¬ M + - m == 0) as Hne' by lra.
  rewrite (proj2 (Qltb_ge (M + - m) ten_eps) Hge).
  cbn [Cell.div]. rewrite (proj2 (Qeqb_neq (M + - m) 0)) by done.
  cbn [Cell.mul Cell.neg Cell.add].
  eexists. split; [done|]. field. lra.
Qed.

(** What the scaler does on a column without infinite entries. *)
Lemma fit_transform_spec X :
  X ≠ [] → Forall finite_or_na X →
  ∃ Y, fit_transform X = Ok Y ∧ length Y = length X ∧
    (∀ i, X !! i = Some NA → Y !! i = Some NA) ∧
    (∀ i x, X !! i = Some (Num x) →
       ∃ m M y, nanmin X = Num m ∧ nanmax X = Num M ∧ m <= x <= M ∧
         Num m ∈ X ∧ Num M ∈ X ∧
         Y !! i = Some (Num y) ∧
         ((M - m < ten_eps ∧ y == x - m) ∨
          (ten_eps <= M - m ∧ y == (x - m) / (M - m)))).
Proof.
  intros Hne HX. eexists. split; [by apply fit_transform_ok|].
  split; [by rewrite length_fmap|]. split.
  - intros i Hi. by rewrite list_lookup_fmap, Hi.
  - intros i x Hi.
    assert (Num x ∈ X) as Hin by (apply list_elem_of_lookup; eauto).
    destruct (nanmin_spec X HX) as [[_ Hall]|(m & Hmin & Hmin_in & Hmin_le)];
      [by apply Hall in Hin|].
    destruct (nanmax_spec X HX) as [[_ Hall]|(M & Hmax & Hmax_in & Hmax_le)];
      [by apply Hall in Hin|].
    pose proof (Hmin_le x Hin). pose proof (Hmax_le x Hin).
    rewrite list_lookup_fmap, Hi. simpl.
    destruct (Qlt_le_dec (M - m) ten_eps) as [E|E].
    + destruct (transform_cell_constant X m M x Hmin Hmax E) as (y & -> & Hy).
      exists m, M, y. repeat split; try done. by left.
    + destruct (transform_cell_spread X m M x Hmin Hmax E) as (y & -> & Hy).
      exists m, M, y. repeat split; try done. by right.
Qed.

End ScalerMore.

(** ** The scoring pipeline *)

Section PipelineFacts.
Open Scope list_scope.
Open Scope Q_scope.
Import Scaler Pipeline.

Lemma add_NA_l b : Cell.add NA b = NA.
Proof. done. Qed.

Lemma add_NA_r a : Cell.add a NA = NA.
Proof. by destruct a. Qed.

Lemma mul_NA_l b : Cell.mul NA b = NA.
Proof. done. Qed.

Lemma mul_NA_r a : Cell.mul a NA = NA.
Proof. by destruct a. Qed.

Lemma finite_or_na_cases c : finite_or_na c → c = NA ∨ ∃ x, c = Num x.
Proof. destruct c; simpl; [by left|done|right; eauto]. Qed.

Lemma finite_or_na_rank_of col v : finite_or_na (Rank.rank_of col v).
Proof. by destruct v. Qed.

Lemma finite_or_na_mul a w : finite_or_na a → finite_or_na (Cell.mul a (Num w)).
Proof. by destruct a. Qed.

Lemma finite_or_na_add a b : finite_or_na a → finite_or_na b → finite_or_na (Cell.add a b).
Proof. by destruct a, b. Qed.

Lemma finite_or_na_raw_score a b c d e f g :
  finite_or_na a → finite_or_na b → finite_or_na c → finite_or_na d →
  finite_or_na e → finite_or_na f → finite_or_na g →
  finite_or_na (raw_score a b c d e f g).
Proof.
  intros. unfold raw_score.
  repeat (apply finite_or_na_add || apply finite_or_na_mul); done.
Qed.

(** A missing rank makes the weighted expression missing. *)
Lemma raw_score_NA a b c d e f g :
  a = NA ∨ b = NA ∨ c = NA ∨ d = NA ∨ e = NA ∨ f = NA ∨ g = NA →
  raw_score a b c d e f g = NA.
Proof.
  unfold raw_score.
  intros [->|[->|[->|[->|[->|[->| ->]]]]]];
    by rewrite ?mul_NA_l, ?add_NA_l, ?add_NA_r.
Qed.

Lemma finite_or_na_raw df r : finite_or_na (pest_sales_score_raw (rank_row df r)).
Proof. apply finite_or_na_raw_score; apply finite_or_na_rank_of. Qed.

Lemma raw_column_lookup (df : list joined_row) i :
  raw_column df !! i = (λ r, pest_sales_score_raw (rank_row df r)) <$> df !! i.
Proof.
  unfold raw_column. rewrite !list_lookup_fmap. by destruct (df !! i).
Qed.

Lemma raw_column_lookup_Some (df : list joined_row) i r :
  df !! i = Some r →
  raw_column df !! i = Some (pest_sales_score_raw (rank_row df r)).
Proof. intros Hr. by rewrite raw_column_lookup, Hr. Qed.

Lemma raw_column_lookup_inv (df : list joined_row) i c :
  raw_column df !! i = Some c →
  ∃ r, df !! i = Some r ∧ c = pest_sales_score_raw (rank_row df r).
Proof.
  rewrite raw_column_lookup. destruct (df !! i) as [r|]; [|done].
  intros [= <-]. eauto.
Qed.

Lemma raw_column_finite df : Forall finite_or_na (raw_column df).
Proof.
  unfold raw_column. rewrite <- list_fmap_compose. apply Forall_fmap, Forall_forall.
  intros r _. apply finite_or_na_raw.
Qed.

(** On a frame with at least one row, [calculate_scores] returns. *)
Lemma calculate_scores_ok df :
  df ≠ [] →
  calculate_scores df
  = Ok (zip_with set_score (rank_row df <$> df)
          (transform_cell (partial_fit (raw_column df)) <$> raw_column df)).
Proof.
  intros Hne. unfold calculate_scores.
  rewrite fit_transform_ok; [done| |apply raw_column_finite].
  unfold raw_column. by destruct df.
Qed.

Lemma scored_length df :
  length (zip_with set_score (rank_row df <$> df)
            (transform_cell (partial_fit (raw_column df)) <$> raw_column df))
  = length df.
Proof.
  rewrite length_zip_with. unfold raw_column. rewrite !length_fmap. lia.
Qed.

Lemma scored_lookup df i row :
  zip_with set_score (rank_row df <$> df)
    (transform_cell (partial_fit (raw_column df)) <$> raw_column df) !! i = Some row ↔
  ∃ r, df !! i = Some r ∧
       row = set_score (rank_row df r)
               (transform_cell (partial_fit (raw_column df))
                  (pest_sales_score_raw (rank_row df r))).
Proof.
  rewrite lookup_zip_with_Some. split.
  - intros (x & y & -> & Hx & Hy).
    rewrite list_lookup_fmap in Hx. rewrite list_lookup_fmap, raw_column_lookup in Hy.
    destruct (df !! i) as [r|]; [|done]. simpl in *.
    injection Hx as <-. injection Hy as <-. eauto.
  - intros (r & Hr & ->). eexists _, _. split; [done|].
    rewrite !list_lookup_fmap, raw_column_lookup, Hr. done.
Qed.

End PipelineFacts.

Section WeightedSum.
Open Scope list_scope.
Open Scope Q_scope.
Import Scaler Pipeline.

Lemma weight_of_values :
  Spec.weight_of Spec.Income = 0.125 ∧
  Spec.weight_of Spec.HomeAge = 0.125 ∧
  Spec.weight_of Spec.Population = 0 ∧
  Spec.weight_of Spec.AdjustedPopulation = 0.50 ∧
  Spec.weight_of Spec.Homeownership = 0.05 ∧
  Spec.weight_of Spec.Precipitation = 0.125 ∧
  Spec.weight_of Spec.Temperature = 0.125 ∧
  Spec.weight_of Spec.SingleFamilyRatio = 0.25.
Proof. repeat split; reflexivity. Qed.

(** Case analysis on a rank: missing or finite. *)
Ltac case_rank c :=
  match goal with
  | H : finite_or_na c |- _ => destruct c as [| |?]; [|destruct H|]
  end.

(** The expression of the code against the two sums of the specification,
    on ranks that are finite or missing. *)
Lemma raw_score_sums (row : scored_row) :
  pest_sales_score_raw row
  = raw_score (rank_home_age row) (rank_avg_precipitation row)
      (rank_avg_temperature row) (rank_sf_ratio row) (rank_income row)
      (rank_adj_population row) (rank_homeownership row) →
  (∀ k, finite_or_na (Spec.percentile_rank row k)) →
  (rank_population row = NA → rank_adj_population row = NA) →
  pest_sales_score_raw row ≡ Spec.weighted_sum row ∧
  pest_sales_score_raw row ≡ Spec.weighted_sum_all row.
Proof.
  intros -> Hfin Hpop.
  destruct weight_of_values as (Wi & Wh & Wp & Wa & Wo & Wr & Wt & Ws).
  unfold Spec.weighted_sum, Spec.weighted_sum_all, Spec.weight_vector,
    Spec.indicators, raw_score.
  cbn [foldr fst snd Spec.percentile_rank].
  rewrite Wi, Wh, Wp, Wa, Wo, Wr, Wt, Ws.
  pose proof (Hfin Spec.Income) as H1. pose proof (Hfin Spec.HomeAge) as H2.
  pose proof (Hfin Spec.Population) as H3.
  pose proof (Hfin Spec.AdjustedPopulation) as H4.
  pose proof (Hfin Spec.Homeownership) as H5.
  pose proof (Hfin Spec.Precipitation) as H6.
  pose proof (Hfin Spec.Temperature) as H7.
  pose proof (Hfin Spec.SingleFamilyRatio) as H8.
  cbn [Spec.percentile_rank] in *.
  destruct (rank_population row) as [| |p]; [|done|].
  - rewrite Hpop by done.
    rewrite ?mul_NA_l, ?add_NA_l, ?add_NA_r. split; [|constructor].
    constructor.
  - clear Hpop Hfin.
    case_rank (rank_home_age row); case_rank (rank_avg_precipitation row);
    case_rank (rank_avg_temperature row); case_rank (rank_sf_ratio row);
    case_rank (rank_income row); case_rank (rank_adj_population row);
    case_rank (rank_homeownership row);
    cbn [Cell.add Cell.mul]; split; constructor; ring.
Qed.

End WeightedSum.

(** ** The claims about the scores *)

Section Claims.
Open Scope list_scope.
Open Scope Q_scope.
Import Scaler Pipeline.

Lemma rank_population_NA df r :
  rank_population (rank_row df r) = NA → rank_adj_population (rank_row df r) = NA.
Proof.
  unfold rank_row. cbn [rank_population rank_adj_population]. intros H.
  assert (total_population (census (dem r)) = NA) as Hp.
  { pose proof (rank_of_isna ((λ x, total_population (census (dem x))) <$> df)
                  (total_population (census (dem r)))) as E.
    rewrite H in E. by destruct (total_population (census (dem r))). }
  unfold adj_population_of at 2. by rewrite Hp.
Qed.

(** C1: for every row, the raw composite score is the weighted sum of the
    percentile ranks under the fixed weight vector (home_age 0.125,
    precipitation 0.125, temperature 0.125, single_family_ratio 0.25,
    income 0.125, adjusted_population 0.50, homeownership 0.05): the sum
    over the entries of the vector, which is also the sum over all eight
    ranks in which the population rank, absent from the vector, weighs 0. *)
Theorem raw_score_is_weighted_sum (df : list joined_row) :
  df ≠ [] →
  ∃ out, calculate_scores df = Ok out ∧ length out = length df ∧
    ∀ i row, out !! i = Some row →
      pest_sales_score_raw row ≡ Spec.weighted_sum row ∧
      pest_sales_score_raw row ≡ Spec.weighted_sum_all row.
Proof.
  intros Hne. eexists. split; [by apply calculate_scores_ok|].
  split; [apply scored_length|].
  intros i row Hrow. apply scored_lookup in Hrow as (r & Hr & ->).
  apply raw_score_sums.
  - done.
  - intros k. destruct k; apply finite_or_na_rank_of.
  - apply rank_population_NA.
Qed.

(** C8: a row in which one of the weighted percentile ranks is missing has
    a missing raw composite score (and a missing final score); the missing
    rank is not counted as zero. *)
Theorem missing_rank_gives_missing_raw_score (df : list joined_row) :
  df ≠ [] →
  ∃ out, calculate_scores df = Ok out ∧
    ∀ i row, out !! i = Some row →
      rank_home_age row = NA ∨ rank_avg_precipitation row = NA ∨
      rank_avg_temperature row = NA ∨ rank_sf_ratio row = NA ∨
      rank_income row = NA ∨ rank_adj_population row = NA ∨
      rank_homeownership row = NA →
      pest_sales_score_raw row = NA ∧ pest_sales_score row = NA.
Proof.
  intros Hne. eexists. split; [by apply calculate_scores_ok|].
  intros i row Hrow Hna. apply scored_lookup in Hrow as (r & Hr & ->).
  cbn [set_score pest_sales_score_raw pest_sales_score rank_home_age
       rank_avg_precipitation rank_avg_temperature rank_sf_ratio rank_income
       rank_adj_population rank_homeownership] in *.
  assert (pest_sales_score_raw (rank_row df r) = NA) as E
    by (by apply raw_score_NA).
  rewrite E. done.
Qed.


End Claims.

Section ClaimsScaler.
Open Scope list_scope.
Open Scope Q_scope.
Import Scaler Pipeline.

(** C3, as the code has it: when all the non-missing raw scores of a
    frame are equal, the rescaling returns without an error and gives
    every record with a raw score the final score 0, the lower end of the
    range; a record without a raw score keeps a missing final score. *)
Theorem constant_raw_scores_rescale_to_zero (df : list joined_row) :
  df ≠ [] →
  ∃ out, calculate_scores df = Ok out ∧ length out = length df ∧
    ((∀ i j ri rj a b,
        out !! i = Some ri → out !! j = Some rj →
        pest_sales_score_raw ri = Num a → pest_sales_score_raw rj = Num b →
        a == b) →
     ∀ i row, out !! i = Some row →
       (∀ x, pest_sales_score_raw row = Num x →
          ∃ y, pest_sales_score row = Num y ∧ y == 0) ∧
       (pest_sales_score_raw row = NA → pest_sales_score row = NA)).
Proof.
  intros Hne.
  assert (raw_column df ≠ []) as Hne' by (unfold raw_column; by destruct df).
  destruct (fit_transform_spec _ Hne' (raw_column_finite df))
    as (Y & HY & Hlen & Hna & Hnum).
  rewrite fit_transform_ok in HY by (done || apply raw_column_finite).
  injection HY as <-.
  eexists. split; [by apply calculate_scores_ok|].
  split; [apply scored_length|].
  intros Hconst i row Hrow.
  pose proof Hrow as Hrow'. apply scored_lookup in Hrow' as (r & Hr & ->).
  cbn [set_score pest_sales_score_raw pest_sales_score]. split.
  - intros x Hraw.
    destruct (Hnum i x) as (m & M & y & Hmin & Hmax & Hx & Hm_in & HM_in & Hy & Hcase).
    { by rewrite (raw_column_lookup_Some df i r Hr), Hraw. }
    rewrite list_lookup_fmap, (raw_column_lookup_Some df i r Hr) in Hy.
    cbn [fmap option_fmap option_map] in Hy. injection Hy as Hy.
    exists y. split; [done|].
    assert (m == M) as HmM.
    { apply list_elem_of_lookup in Hm_in as [k Hk], HM_in as [l Hl].
      destruct (raw_column_lookup_inv df k _ Hk) as (rk & Hrk & Ek).
      destruct (raw_column_lookup_inv df l _ Hl) as (rl & Hrl & El).
      eapply (Hconst k l); [apply scored_lookup; eauto|apply scored_lookup; eauto| |];
        cbn [set_score pest_sales_score_raw]; done. }
    pose proof ten_eps_pos.
    destruct Hcase as [[_ E]|[Hge _]]; lra.
  - intros Hraw. by rewrite Hraw.
Qed.

End ClaimsScaler.

Lemma constant_raw_scores_rescale_to_zero_witness :
  Sample.frame_twins ≠ [] ∧
  ∃ out, Pipeline.calculate_scores Sample.frame_twins = Ok out ∧
    length out = length (Sample.frame_twins) ∧
    ((∀ i j ri rj a b,
        out !! i = Some ri → out !! j = Some rj →
        pest_sales_score_raw ri = Num a → pest_sales_score_raw rj = Num b →
        (a == b)%Q) →
     ∀ i row, out !! i = Some row →
       (∀ x, pest_sales_score_raw row = Num x →
          ∃ y, pest_sales_score row = Num y ∧ (y == 0)%Q) ∧
       (pest_sales_score_raw row = NA → pest_sales_score row = NA)).
Proof.
  split; [done|].
  apply (constant_raw_scores_rescale_to_zero Sample.frame_twins).
  done.
Defined.

(** C3 fails as stated: two counties with the same figures have equal raw
    scores, and their final scores are 0, not 0.5. *)
Lemma constant_raw_scores_not_midpoint :
  ∃ out r1 r2 a y,
    Pipeline.calculate_scores Sample.frame_twins = Ok out ∧
    out = [r1; r2] ∧
    pest_sales_score_raw r1 = Num a ∧ pest_sales_score_raw r2 = Num a ∧
    pest_sales_score r1 = Num y ∧ (y == 0)%Q ∧ ¬ (y == 0.5)%Q.
Proof.
  eexists _, _, _, _, _. split; [vm_compute; reflexivity|].
  split; [reflexivity|]. split; [reflexivity|]. split; [reflexivity|].
  split; [reflexivity|]. split; [reflexivity|]. intros H. discriminate H.
Qed.

Section ClaimsDerived.
Open Scope list_scope.
Open Scope Q_scope.
Import Scaler Pipeline.

Lemma replace_zero_na_zero c : c ≡ Num 0 → Cell.replace_zero_na c = NA.
Proof.
  intros Hc. inversion Hc as [| |x y Hxy]; subst. simpl.
  by rewrite (proj2 (Qeqb_eq x 0) Hxy).
Qed.

Lemma div_NA_r a : Cell.div a NA = NA.
Proof. by destruct a. Qed.

(** C7: a record with [total_housing_units = 0] has a missing
    [sf_ratio]; in every frame that holds it, [calculate_scores] returns
    without an error and the record's [adj_population] is missing. *)
Theorem zero_total_units_gives_missing (r : census_row) :
  total_housing_units r ≡ Num 0 →
  sf_ratio (derive r) = NA ∧
  ∀ (df : list joined_row) i j,
    df !! i = Some j → dem j = derive r →
    ∃ out row, calculate_scores df = Ok out ∧ out !! i = Some row ∧
      joined row = j ∧ sf_ratio (dem (joined row)) = NA ∧
      adj_population row = NA.
Proof.
  intros Hz.
  assert (sf_ratio (derive r) = NA) as Hsf.
  { unfold derive. cbn [sf_ratio]. by rewrite replace_zero_na_zero, div_NA_r. }
  split; [done|]. intros df i j Hj Hdem.
  assert (df ≠ []) as Hne by (intros ->; done).
  eexists _, _. split; [by apply calculate_scores_ok|].
  split; [apply scored_lookup; eauto|].
  cbn [set_score joined adj_population]. unfold rank_row. cbn [joined adj_population].
  unfold adj_population_of. rewrite Hdem, Hsf, mul_NA_r. done.
Qed.

(** C2, on the code: with [total_occupied_units = 0] the
    [homeownership_rate] is the quotient numpy gives, missing only when
    [owner_occupied_units] is 0 as well, and an infinity otherwise. *)
Theorem homeownership_rate_zero_denominator (r : census_row) (x : Q) :
  total_occupied_units r ≡ Num 0 →
  owner_occupied_units r = Num x →
  (x == 0 → homeownership_rate (derive r) = NA) ∧
  (0 < x → homeownership_rate (derive r) = Inf false) ∧
  (x < 0 → homeownership_rate (derive r) = Inf true).
Proof.
  intros Hz Hx. unfold derive. cbn [homeownership_rate]. rewrite Hx.
  destruct (total_occupied_units r) as [| |t]; inversion Hz as [| |? ? Ht]; subst.
  cbn [Cell.div]. rewrite (proj2 (Qeqb_eq t 0) Ht).
  repeat split; intros Hsign.
  - by rewrite (proj2 (Qeqb_eq x 0) Hsign).
  - rewrite (proj2 (Qeqb_neq x 0)) by lra. by rewrite (proj2 (Qltb_ge x 0)) by lra.
  - rewrite (proj2 (Qeqb_neq x 0)) by lra. by rewrite (proj2 (Qltb_lt x 0)) by lra.
Qed.

End ClaimsDerived.

Section ClaimsJoin.
Open Scope list_scope.
Import Pipeline.

Lemma merge_left_nil {A} (key : A → string) (left : list A) :
  merge_left key left [] = (λ l, (l, NA)) <$> left.
Proof.
  unfold merge_left. induction left as [|l left IH]; [done|].
  rewrite bind_cons, IH. done.
Qed.

Lemma merge_left_survives {A} (key : A → string) (left : list A) right l :
  l ∈ left → ∃ v, (l, v) ∈ merge_left key left right.
Proof.
  intros Hl. unfold merge_left.
  destruct (matches (key l) right) as [|v vs] eqn:E.
  - exists NA. apply list_elem_of_bind. exists l. split; [|done].
    rewrite E. apply list_elem_of_here.
  - exists v. apply list_elem_of_bind. exists l. split; [|done].
    rewrite E. apply list_elem_of_here.
Qed.

(** C9: the left merge of the census frame with a weather frame without
    rows is the census frame with one more column, missing in every row;
    so are the two merges of [main] with two such frames.  Whatever the
    weather frames hold, every census row survives the merges. *)
Theorem merge_with_empty_secondary (df : list county_row) :
  merge_left fips df [] = (λ l, (l, NA)) <$> df ∧
  fst <$> merge_left fips df [] = df ∧
  Forall (λ lv, snd lv = NA) (merge_left fips df []) ∧
  merge_weather df [] []
  = (λ l, {| dem := l; avg_precipitation := NA; avg_temperature := NA |}) <$> df ∧
  dem <$> merge_weather df [] [] = df ∧
  (∀ precip temp l, l ∈ df → l ∈ dem <$> merge_weather df precip temp).
Proof.
  split; [apply merge_left_nil|].
  split. { rewrite merge_left_nil, <- list_fmap_compose. apply list_fmap_id. }
  split. { rewrite merge_left_nil. apply Forall_fmap, Forall_forall. done. }
  assert (merge_weather df [] []
          = (λ l, {| dem := l; avg_precipitation := NA; avg_temperature := NA |}) <$> df)
    as Hmw.
  { unfold merge_weather. rewrite !merge_left_nil, <- !list_fmap_compose. done. }
  split; [done|].
  split. { rewrite Hmw, <- list_fmap_compose. apply list_fmap_id. }
  intros precip temp l Hl. unfold merge_weather.
  destruct (merge_left_survives fips df precip l Hl) as [p Hp].
  destruct (merge_left_survives (λ lp, fips (fst lp)) _ temp (l, p) Hp) as [t Ht].
  rewrite <- list_fmap_compose. apply list_elem_of_fmap.
  exists (l, p, t). done.
Qed.

End ClaimsJoin.

Section ClaimsRank.
Open Scope list_scope.
Open Scope Q_scope.
Import Rank.

(** C5, as the code has it: [rank(pct=True)] is the fractional ranking
    with averaged ties.  The output has one entry per input; a missing
    entry stays missing; a non-missing entry gets the mean of its tied
    positions divided by the number of non-missing entries, a rank in
    (0,1]; tied entries get the same rank; a maximum that no other entry
    ties with gets 1; the ranks of the non-missing entries are those of
    the column with the missing entries removed; and [10,10,20] ranks to
    [0.5,0.5,1.0]. *)
Theorem rank_pct_fractional_ranking (col : list cell) :
  length (rank_pct col) = length col ∧
  (∀ i, col !! i = Some NA → rank_pct col !! i = Some NA) ∧
  (∀ i v, col !! i = Some v → Cell.notna v = true →
     ∃ q, rank_pct col !! i = Some (Num q) ∧ 0 < q <= 1 ∧
          q == (Qn (n_less col v) + (Qn (n_equal col v) + 1) / 2)
               / Qn (length (valid col))) ∧
  (∀ i j v w, col !! i = Some v → col !! j = Some w → Cell.eqb v w = true →
     rank_pct col !! i = rank_pct col !! j) ∧
  (∀ i v, col !! i = Some v → Cell.notna v = true →
     (∀ j w, j ≠ i → col !! j = Some w → Cell.notna w = true → Cell.ltb w v = true) →
     ∃ q, rank_pct col !! i = Some (Num q) ∧ q == 1) ∧
  valid (rank_pct col) = rank_pct (valid col) ∧
  rank_pct [Num 10; Num 10; Num 20] ≡ [Num 0.5; Num 0.5; Num 1.0].
Proof.
  split; [unfold rank_pct; by rewrite length_fmap|].
  split. { intros i Hi. by rewrite rank_pct_lookup, Hi. }
  split.
  { intros i v Hi Hv.
    assert (v ∈ col) as Hin by (apply list_elem_of_lookup; eauto).
    rewrite rank_pct_lookup, Hi. cbn [fmap option_fmap option_map].
    rewrite (rank_of_Num col v Hv). eexists. split; [done|].
    split; [by apply average_rank_bounds|].
    by rewrite (average_rank_closed col v (n_equal_pos col v Hin Hv)). }
  split.
  { intros i j v w Hi Hj He. rewrite !rank_pct_lookup, Hi, Hj.
    cbn [fmap option_fmap option_map]. by rewrite (rank_of_tied col v w He). }
  split.
  { intros i v Hi Hv Hmax. rewrite rank_pct_lookup, Hi.
    cbn [fmap option_fmap option_map]. rewrite (rank_of_Num col v Hv).
    eexists. split; [done|]. by apply (rank_of_strict_max col i v). }
  split; [apply rank_pct_valid|].
  repeat constructor; vm_compute; reflexivity.
Qed.

End ClaimsRank.

(** C5 fails as stated where the maximum is tied: in [10,20,20] no entry
    exceeds 20, and the rank of 20 is 5/6, not 1. *)
Lemma rank_pct_tied_maximum :
  let col := [Num 10; Num 20; Num 20] in
  col !! 1%nat = Some (Num 20) ∧
  (∀ w, w ∈ col → Cell.ltb (Num 20) w = false) ∧
  ∃ q, Rank.rank_pct col !! 1%nat = Some (Num q) ∧ (q == 5 # 6)%Q ∧ ¬ (q == 1)%Q.
Proof.
  cbv zeta. split; [reflexivity|]. split.
  - intros w Hw. repeat (apply elem_of_cons in Hw as [->|Hw]; [reflexivity|]).
    by apply elem_of_nil in Hw.
  - eexists. split; [vm_compute; reflexivity|]. split; [reflexivity|].
    intros H. discriminate H.
Qed.

(** ** The identifier normalizer *)

Section FipsFacts.
Open Scope list_scope.
Import Fips.

Lemma length_split sep s : length (split sep s) = S (count sep s).
Proof.
  induction s as [|c s IH]; simpl; [done|].
  destruct (Ascii.eqb c sep); simpl.
  - by rewrite IH.
  - destruct (split sep s); simpl in *; lia.
Qed.

Lemma unpack2_length (parts : list string) :
  length parts ≠ 2 → unpack2 parts = Raise ValueError.
Proof. destruct parts as [|a [|b [|c ps]]]; simpl; intros; done || lia. Qed.

(** C10: an identifier that does not hold exactly one separator makes
    [id_to_fips] fail: the tuple assignment raises and no key is
    returned. *)
Theorem id_to_fips_separator (id_str : string) :
  count "-" id_str ≠ 1 → id_to_fips id_str = Raise ValueError.
Proof.
  intros Hc. unfold id_to_fips.
  rewrite unpack2_length; [done|]. rewrite length_split. lia.
Qed.

Lemma apply_id_to_fips_Ok (csv : Pipeline.weather_csv) w id v :
  Pipeline.apply_id_to_fips csv = Ok w → (id, v) ∈ csv →
  ∃ key, id_to_fips id = Ok key.
Proof.
  revert w. induction csv as [|[id' v'] csv IH]; intros w Hok Hin.
  - by apply elem_of_nil in Hin.
  - cbn [Pipeline.apply_id_to_fips] in Hok.
    destruct (id_to_fips id') as [k|e] eqn:Hk; [|done]. cbn [bind] in Hok.
    destruct (Pipeline.apply_id_to_fips csv) as [w'|e] eqn:Hw; [|done].
    apply elem_of_cons in Hin as [[= -> ->]|Hin]; [eauto|].
    by apply (IH w').
Qed.

(** C6: an identifier whose region abbreviation is not a key of the
    state mapping never yields a key; with its one separator in place the
    failure is the lookup error of the mapping, raised on that
    abbreviation; and a weather file that holds such an identifier makes
    [load_weather_data] fail, so that no frame is built from it. *)
Theorem id_to_fips_unknown_region (id_str : string) :
  state_abbr_to_fips !! region_of id_str = None →
  (∀ key, id_to_fips id_str ≠ Ok key) ∧
  (count "-" id_str = 1 →
   id_to_fips id_str = Raise (KeyError (region_of id_str))) ∧
  (∀ avg_prec avg_temp v,
     (id_str, v) ∈ avg_prec ∨ (id_str, v) ∈ avg_temp →
     ∀ frames, Pipeline.load_weather_data avg_prec avg_temp ≠ Ok frames).
Proof.
  intros Hnone.
  assert ((∀ key, id_to_fips id_str ≠ Ok key) ∧
          (count "-" id_str = 1 →
           id_to_fips id_str = Raise (KeyError (region_of id_str))))
    as [Hfail Hkey].
  { unfold id_to_fips, region_of in *.
    pose proof (length_split "-" id_str) as Hl.
    destruct (split "-" id_str) as [|a [|b [|c ps]]] eqn:Hs;
      cbn [hd length unpack2 bind] in *;
      try (split; [done|]; intros Hc; lia).
    unfold getitem. rewrite Hnone. cbn [bind]. split; done. }
  split; [done|]. split; [done|].
  intros avg_prec avg_temp v Hin frames Hok.
  unfold Pipeline.load_weather_data in Hok.
  destruct (Pipeline.apply_id_to_fips avg_prec) as [p|e] eqn:Hp; [|done].
  cbn [bind] in Hok.
  destruct (Pipeline.apply_id_to_fips avg_temp) as [t|e] eqn:Ht; [|done].
  destruct Hin as [Hin|Hin].
  - destruct (apply_id_to_fips_Ok _ _ _ _ Hp Hin) as [key Hk]. by apply (Hfail key).
  - destruct (apply_id_to_fips_Ok _ _ _ _ Ht Hin) as [key Hk]. by apply (Hfail key).
Qed.

End FipsFacts.

Example id_to_fips_AL : Fips.id_to_fips "AL-1" = Ok "01001".
Proof. vm_compute. reflexivity. Qed.

Example id_to_fips_WY : Fips.id_to_fips "WY-045" = Ok "56045".
Proof. vm_compute. reflexivity. Qed.

Example id_to_fips_signed : Fips.id_to_fips "AL-+7" = Ok "01+07".
Proof. vm_compute. reflexivity. Qed.

Lemma id_to_fips_separator_witness :
  Fips.count "-" "AL001" ≠ 1 ∧ Fips.id_to_fips "AL001" = Raise ValueError.
Proof.
  split; [vm_compute; lia|].
  apply (id_to_fips_separator "AL001"). vm_compute. lia.
Defined.

Lemma id_to_fips_unknown_region_witness :
  Fips.state_abbr_to_fips !! Fips.region_of "DC-001" = None ∧
  (∀ key, Fips.id_to_fips "DC-001" ≠ Ok key) ∧
  Fips.id_to_fips "DC-001" = Raise (KeyError "DC") ∧
  ∀ frames, Pipeline.load_weather_data [("DC-001", Num 40)] [] ≠ Ok frames.
Proof.
  assert (Fips.state_abbr_to_fips !! Fips.region_of "DC-001" = None) as Hnone
    by (vm_compute; reflexivity).
  destruct (id_to_fips_unknown_region "DC-001" Hnone) as (Hfail & Hkey & Hload).
  split; [done|]. split; [done|]. split; [by apply Hkey|].
  apply (Hload _ _ (Num 40)). left. apply list_elem_of_here.
Defined.

(** ** The claims at the sample frames *)

Lemma raw_score_is_weighted_sum_witness :
  Sample.frame_AB ≠ [] ∧
  ∃ out, Pipeline.calculate_scores Sample.frame_AB = Ok out ∧
    length out = length Sample.frame_AB ∧
    ∀ i row, out !! i = Some row →
      pest_sales_score_raw row ≡ Spec.weighted_sum row ∧
      pest_sales_score_raw row ≡ Spec.weighted_sum_all row.
Proof.
  split; [done|]. apply (raw_score_is_weighted_sum Sample.frame_AB). done.
Defined.

Lemma missing_rank_gives_missing_raw_score_witness :
  Sample.frame_all ≠ [] ∧
  ∃ out, Pipeline.calculate_scores Sample.frame_all = Ok out ∧
    ∀ i row, out !! i = Some row →
      rank_home_age row = NA ∨ rank_avg_precipitation row = NA ∨
      rank_avg_temperature row = NA ∨ rank_sf_ratio row = NA ∨
      rank_income row = NA ∨ rank_adj_population row = NA ∨
      rank_homeownership row = NA →
      pest_sales_score_raw row = NA ∧ pest_sales_score row = NA.
Proof.
  split; [done|].
  apply (missing_rank_gives_missing_raw_score Sample.frame_all). done.
Defined.


Section ClaimsBinary64.
Import PrimFloat.
Open Scope float_scope.


(** On the frame of the four sample counties the largest final score is
    0.9999999999999996. *)
Example frame_all_binary64 :
  ∃ raws, F64.calculate_scores Sample.frame_all
          = Ok (zip raws [0; 0x1.ffffffffffffcp-1; nan; nan]).
Proof. eexists [_; _; _; _]. vm_compute. reflexivity. Qed.

End ClaimsBinary64.

Lemma zero_total_units_gives_missing_witness :
  total_housing_units Sample.county_empty ≡ Num 0 ∧
  sf_ratio (Pipeline.derive Sample.county_empty) = NA ∧
  ∀ (df : list joined_row) i j,
    df !! i = Some j → dem j = Pipeline.derive Sample.county_empty →
    ∃ out row, Pipeline.calculate_scores df = Ok out ∧ out !! i = Some row ∧
      joined row = j ∧ sf_ratio (dem (joined row)) = NA ∧
      adj_population row = NA.
Proof.
  split; [constructor; reflexivity|].
  apply (zero_total_units_gives_missing Sample.county_empty).
  constructor. reflexivity.
Defined.

Lemma homeownership_rate_zero_denominator_witness :
  total_occupied_units Sample.county_odd ≡ Num 0 ∧
  owner_occupied_units Sample.county_odd = Num 5 ∧
  homeownership_rate (Pipeline.derive Sample.county_odd) = Inf false.
Proof.
  split; [constructor; reflexivity|]. split; [reflexivity|].
  apply (homeownership_rate_zero_denominator Sample.county_odd 5);
    [constructor; reflexivity|reflexivity|reflexivity].
Defined.

(** The sample frame through [calculate_scores]: the county without
    housing units has no ratio, and the infinite rate of the last county
    takes the top homeownership rank. *)
Example frame_all_scores :
  ∃ a b e o,
    Pipeline.calculate_scores Sample.frame_all = Ok [a; b; e; o] ∧
    sf_ratio (dem (joined e)) = NA ∧ adj_population e = NA ∧
    homeownership_rate (dem (joined o)) = Inf false ∧
    rank_homeownership o ≡ Num 1 ∧
    pest_sales_score a ≡ Num 0 ∧ pest_sales_score b ≡ Num 1.
Proof.
  eexists _, _, _, _. split; [vm_compute; reflexivity|].
  repeat split; try reflexivity; constructor; reflexivity.
Qed.

(** * Further properties *)

(** ** Identifiers and keys *)

Section FipsMore.
Open Scope list_scope.
Import Fips.

Lemma length_append s t : String.length (s +:+ t) = String.length s + String.length t.
Proof. induction s as [|c s IH]; simpl; [done|]. by rewrite IH. Qed.

Lemma count_append sep s t : count sep (s +:+ t) = count sep s + count sep t.
Proof. induction s as [|c s IH]; simpl; [done|]. rewrite IH. lia. Qed.

Lemma split_not_nil sep s : split sep s ≠ [].
Proof.
  pose proof (length_split sep s) as H. destruct (split sep s); [simpl in H; lia|done].
Qed.

(** A string without separator is its own single piece. *)
Lemma split_none sep s : count sep s = 0 → split sep s = [s].
Proof.
  induction s as [|c s IH]; simpl; [done|].
  destruct (Ascii.eqb c sep); [done|]. intros H. by rewrite IH.
Qed.

Lemma split_one_inv sep s c : split sep s = [c] → s = c ∧ count sep c = 0.
Proof.
  intros H. pose proof (length_split sep s) as Hl. rewrite H in Hl. simpl in Hl.
  assert (count sep s = 0) as Hc by lia.
  rewrite (split_none sep s Hc) in H. injection H as <-. done.
Qed.

Lemma split_app sep a c :
  count sep a = 0 → split sep (a +:+ String sep c) = a :: split sep c.
Proof.
  induction a as [|ch a IH]; simpl.
  - intros _. by rewrite Ascii.eqb_refl.
  - destruct (Ascii.eqb ch sep); [done|]. intros H. by rewrite IH.
Qed.

Lemma split_two_inv sep s a c :
  split sep s = [a; c] →
  s = a +:+ String sep c ∧ count sep a = 0 ∧ count sep c = 0.
Proof.
  revert a. induction s as [|ch s IH]; intros a; simpl; [done|].
  destruct (Ascii.eqb ch sep) eqn:E.
  - intros [= <- H]. apply Ascii.eqb_eq in E as ->.
    apply split_one_inv in H as [-> Hc]. done.
  - destruct (split sep s) as [|p ps] eqn:Hs; [done|].
    intros [= <- ->]. destruct (IH p eq_refl) as (-> & Ha & Hc).
    simpl. rewrite E. done.
Qed.

Lemma length_zeros n : String.length (zeros n) = n.
Proof. induction n; simpl; congruence. Qed.

Lemma length_zfill width s :
  String.length (zfill width s) = Nat.max width (String.length s).
Proof.
  unfold zfill. destruct (width <=? String.length s)%nat eqn:E.
  - apply Nat.leb_le in E. lia.
  - apply Nat.leb_gt in E. destruct s as [|c s].
    + rewrite length_zeros. simpl. lia.
    + destruct (Ascii.eqb c "+" || Ascii.eqb c "-"); simpl in *;
        rewrite length_append, length_zeros; simpl; lia.
Qed.

Lemma zfill_long width s : (width ≤ String.length s)%nat → zfill width s = s.
Proof. intros H. unfold zfill. by rewrite (proj2 (Nat.leb_le _ _) H). Qed.

Lemma zfill_idemp width s : zfill width (zfill width s) = zfill width s.
Proof. apply zfill_long. rewrite length_zfill. lia. Qed.

Lemma count_zeros n : count "-" (zeros n) = 0.
Proof. induction n; simpl; done. Qed.

Lemma count_zfill width s : count "-" s = 0 → count "-" (zfill width s) = 0.
Proof.
  intros H. unfold zfill. destruct (width <=? String.length s)%nat; [done|].
  destruct s as [|c s]; [apply count_zeros|].
  simpl in H. destruct (Ascii.eqb c "-") eqn:E; [done|].
  rewrite orb_false_r. destruct (Ascii.eqb c "+"); simpl; rewrite ?E;
    rewrite count_append, count_zeros; simpl; rewrite ?E; done.
Qed.

(** The identifiers [id_to_fips] accepts, and the key it gives them. *)
Lemma id_to_fips_Ok_iff id_str key :
  id_to_fips id_str = Ok key ↔
  ∃ a c f, id_str = a +:+ String "-" c ∧ count "-" a = 0 ∧ count "-" c = 0 ∧
           state_abbr_to_fips !! a = Some f ∧ key = f +:+ zfill 3 c.
Proof.
  unfold id_to_fips. split.
  - destruct (split "-" id_str) as [|a [|c [|d ps]]] eqn:Hs; cbn [unpack2 bind]; try done.
    unfold getitem. destruct (state_abbr_to_fips !! a) as [f|] eqn:Hf; cbn [bind]; [|done].
    intros [= <-]. apply split_two_inv in Hs as (-> & Ha & Hc).
    exists a, c, f. done.
  - intros (a & c & f & -> & Ha & Hc & Hf & ->).
    rewrite (split_app "-" a c Ha), (split_none "-" c Hc). cbn [unpack2 bind].
    unfold getitem. rewrite Hf. done.
Qed.

End FipsMore.
Section Tables.
Open Scope list_scope.
Import Fips.

Lemma state_fips_width :
  map_Forall (λ _ f, String.length f = 2) state_abbr_to_fips.
Proof. apply (bool_decide_unpack _). vm_compute. reflexivity. Qed.

Lemma state_fips_NoDup : NoDup (snd <$> map_to_list state_abbr_to_fips).
Proof. apply (bool_decide_unpack _). vm_compute. reflexivity. Qed.

Lemma state_fips_named :
  map_Forall (λ _ f, is_Some (View.state_fips_to_name !! f)) state_abbr_to_fips.
Proof. apply (bool_decide_unpack _). vm_compute. reflexivity. Qed.

Lemma state_name_coded :
  map_Forall (λ f _, f ∈ snd <$> map_to_list state_abbr_to_fips) View.state_fips_to_name.
Proof. apply (bool_decide_unpack _). vm_compute. reflexivity. Qed.

End Tables.
Section FipsKeys.
Open Scope list_scope.
Import Fips.

Lemma count_zfill_eq width s : count "-" (zfill width s) = count "-" s.
Proof.
  unfold zfill. destruct (width <=? String.length s)%nat; [done|].
  destruct s as [|c s]; [apply count_zeros|].
  destruct (Ascii.eqb c "+" || Ascii.eqb c "-"); simpl;
    rewrite count_append, count_zeros; simpl; done.
Qed.

(** [id_to_fips] on an identifier written with a separator. *)
Lemma id_to_fips_app a c :
  id_to_fips (a +:+ String "-" c) =
  if decide (count "-" a = 0 ∧ count "-" c = 0)
  then bind (getitem state_abbr_to_fips a) (λ f, Ok (f +:+ zfill 3 c))
  else Raise ValueError.
Proof.
  unfold id_to_fips. destruct (decide _) as [[Ha Hc]|Hn].
  - by rewrite (split_app "-" a c Ha), (split_none "-" c Hc).
  - rewrite unpack2_length; [done|]. rewrite length_split, count_append. simpl. lia.
Qed.

Lemma append_inj_length s1 s2 t1 t2 :
  String.length s1 = String.length s2 → s1 +:+ t1 = s2 +:+ t2 → s1 = s2 ∧ t1 = t2.
Proof.
  revert s2. induction s1 as [|c s1 IH]; intros [|d s2]; simpl; try done.
  intros [= Hl] [= -> H]. destruct (IH s2 Hl H) as [-> ->]. done.
Qed.

Lemma NoDup_snd_inj {A B} (l : list (A * B)) a1 a2 b :
  NoDup (snd <$> l) → (a1, b) ∈ l → (a2, b) ∈ l → a1 = a2.
Proof.
  induction l as [|[a b'] l IH]; csimpl; intros Hnd H1 H2.
  - by apply elem_of_nil in H1.
  - apply NoDup_cons in Hnd as [Hnotin Hnd].
    apply elem_of_cons in H1 as [[= -> ->]|H1], H2 as [[= ->]|H2]; try done.
    + exfalso. subst. apply Hnotin, list_elem_of_fmap. by exists (a2, b').
    + exfalso. subst. apply Hnotin, list_elem_of_fmap. by exists (a1, b').
    + by apply IH.
Qed.

Lemma state_fips_inj a1 a2 f :
  state_abbr_to_fips !! a1 = Some f → state_abbr_to_fips !! a2 = Some f → a1 = a2.
Proof.
  intros H1 H2. apply elem_of_map_to_list in H1, H2.
  exact (NoDup_snd_inj _ a1 a2 f state_fips_NoDup H1 H2).
Qed.

Lemma state_fips_length a f :
  state_abbr_to_fips !! a = Some f → String.length f = 2.
Proof. apply state_fips_width. Qed.

End FipsKeys.
Section FipsTheorems.
Open Scope list_scope.
Import Fips.

(** X1: [id_to_fips] returns a key exactly on the identifiers made of an
    abbreviation of the table, one separator and a code, neither part
    holding a separator; the key is the state's code followed by the code
    padded with zeros to three characters. *)
Theorem id_to_fips_accepts (id_str key : string) :
  id_to_fips id_str = Ok key ↔
  ∃ a c f, id_str = a +:+ String "-" c ∧ count "-" a = 0 ∧ count "-" c = 0 ∧
           state_abbr_to_fips !! a = Some f ∧ key = f +:+ zfill 3 c.
Proof. apply id_to_fips_Ok_iff. Qed.

(** X2: a key has two characters of state code and then the county code
    padded, not cut, to three: its length is 2 + max(3, length of the
    code), which is 5 when the code has at most three characters and more
    when it is longer. *)
Theorem id_to_fips_key_length (a c key : string) :
  id_to_fips (a +:+ String "-" c) = Ok key →
  String.length key = 2 + Nat.max 3 (String.length c) ∧
  ((String.length c ≤ 3)%nat → String.length key = 5) ∧
  ((3 < String.length c)%nat → (5 < String.length key)%nat).
Proof.
  rewrite id_to_fips_app. destruct (decide _) as [[Ha Hc]|]; [|done].
  unfold getitem. destruct (state_abbr_to_fips !! a) as [f|] eqn:Hf; [|done].
  cbn [bind]. intros [= <-].
  rewrite length_append, length_zfill, (state_fips_length a f Hf). lia.
Qed.

(** X3: padding the code beforehand changes nothing: an identifier and
    the identifier with its code already padded to three characters have
    the same outcome, key or error. *)
Theorem id_to_fips_padded_code (a c : string) :
  id_to_fips (a +:+ String "-" (zfill 3 c)) = id_to_fips (a +:+ String "-" c).
Proof.
  rewrite !id_to_fips_app, count_zfill_eq, zfill_idemp. done.
Qed.

(** X4: two accepted identifiers get the same key exactly when they have
    the same abbreviation and their codes are equal once padded. *)
Theorem id_to_fips_same_key (a1 c1 a2 c2 key : string) :
  id_to_fips (a1 +:+ String "-" c1) = Ok key →
  (id_to_fips (a2 +:+ String "-" c2) = Ok key ↔
   a2 = a1 ∧ count "-" c2 = 0 ∧ zfill 3 c2 = zfill 3 c1).
Proof.
  rewrite !id_to_fips_app. destruct (decide _) as [[Ha1 Hc1]|]; [|done].
  unfold getitem. destruct (state_abbr_to_fips !! a1) as [f1|] eqn:Hf1; [|done].
  cbn [bind]. intros [= <-]. split.
  - destruct (decide _) as [[Ha2 Hc2]|]; [|done].
    destruct (state_abbr_to_fips !! a2) as [f2|] eqn:Hf2; [|done].
    cbn [bind]. intros [= H].
    apply append_inj_length in H as [-> Hz].
    2:{ by rewrite (state_fips_length a1 f1 Hf1), (state_fips_length a2 f2 Hf2). }
    split; [by apply (state_fips_inj a2 a1 f1)|done].
  - intros (-> & Hc2 & Hz). rewrite decide_True by done.
    rewrite Hf1. cbn [bind]. by rewrite Hz.
Qed.

Lemma substring_prefix2 f z : String.length f = 2 → substring 0 2 (f +:+ z) = f.
Proof.
  destruct f as [|x [|y [|w f]]]; simpl; try done.
  intros _. by destruct z.
Qed.

(** X5: the two state tables agree.  The first two characters of every
    key [id_to_fips] returns are a code that [state_fips_to_name] names,
    and every code that table names is the code of exactly one
    abbreviation of [state_abbr_to_fips]. *)
Theorem state_tables_agree :
  (∀ id_str key, id_to_fips id_str = Ok key →
     is_Some (View.state_fips_to_name !! substring 0 2 key)) ∧
  (∀ code name, View.state_fips_to_name !! code = Some name →
     ∃ a, state_abbr_to_fips !! a = Some code ∧
          ∀ a', state_abbr_to_fips !! a' = Some code → a' = a).
Proof.
  split.
  - intros id_str key Hk. apply id_to_fips_Ok_iff in Hk as (a & c & f & -> & _ & _ & Hf & ->).
    rewrite (substring_prefix2 f _ (state_fips_length a f Hf)).
    by apply (state_fips_named a f).
  - intros code name Hn. pose proof (state_name_coded code name Hn) as Hin.
    apply list_elem_of_fmap in Hin as ([a f] & -> & Hin).
    apply elem_of_map_to_list in Hin. exists a. split; [done|].
    intros a' Ha'. by apply (state_fips_inj a' a f).
Qed.

End FipsTheorems.

Lemma id_to_fips_key_length_witness :
  Fips.id_to_fips "TX-1234" = Ok "481234" ∧ String.length "481234" = 6.
Proof.
  assert (Fips.id_to_fips ("TX" +:+ String "-" "1234") = Ok "481234") as H
    by (vm_compute; reflexivity).
  split; [exact H|].
  destruct (id_to_fips_key_length "TX" "1234" "481234" H) as [Hlen _]. exact Hlen.
Defined.

Lemma id_to_fips_same_key_witness :
  Fips.id_to_fips "AL-1" = Ok "01001" ∧ Fips.id_to_fips "AL-01" = Ok "01001".
Proof.
  assert (Fips.id_to_fips ("AL" +:+ String "-" "1") = Ok "01001") as H
    by (vm_compute; reflexivity).
  split; [exact H|].
  apply (id_to_fips_same_key "AL" "1" "AL" "01" "01001" H).
  split; [reflexivity|]. split; reflexivity.
Defined.
(** ** The weather files and the merges *)

Section WeatherFacts.
Open Scope list_scope.
Import Fips Pipeline.

Lemma apply_id_to_fips_Forall2 csv w :
  apply_id_to_fips csv = Ok w ↔ Forall2 keyed csv w.
Proof.
  revert w. induction csv as [|[id v] csv IH]; intros w; cbn [apply_id_to_fips].
  - split; [intros [= <-]; constructor|intros H; by inversion H].
  - split.
    + destruct (id_to_fips id) as [k|e] eqn:Hk; [|done]. cbn [bind].
      destruct (apply_id_to_fips csv) as [w'|e] eqn:Hw; [|done]. cbn [bind].
      intros [= <-]. constructor; [done|]. by apply IH.
    + intros H. inversion H as [|? [k v'] ? w' [Hk Hv] Hrest]; subst.
      simpl in Hk, Hv. subst. rewrite Hk. cbn [bind].
      rewrite (proj2 (IH w') Hrest). done.
Qed.

Lemma apply_id_to_fips_first_error good id v rest w e :
  apply_id_to_fips good = Ok w → id_to_fips id = Raise e →
  apply_id_to_fips (good ++ (id, v) :: rest) = Raise e.
Proof.
  revert w. induction good as [|[id' v'] good IH]; intros w Hw He; cbn [app apply_id_to_fips].
  - by rewrite He.
  - cbn [apply_id_to_fips] in Hw.
    destruct (id_to_fips id') as [k|e'] eqn:Hk; [|done]. cbn [bind] in *.
    destruct (apply_id_to_fips good) as [w'|e'] eqn:Hw'; [|done].
    by rewrite (IH w' eq_refl He).
Qed.

End WeatherFacts.
Section WeatherTheorems.
Open Scope list_scope.
Import Fips Pipeline.

(** X6: [load_weather_data] returns the two frames exactly when every
    identifier of the two files is accepted; each frame then has one row
    per line of its file, in the order of the file, holding the key of
    the identifier and the unchanged value. *)
Theorem load_weather_data_frames (avg_prec avg_temp : weather_csv) (precip temp : weather) :
  load_weather_data avg_prec avg_temp = Ok (precip, temp) ↔
  Forall2 keyed avg_prec precip ∧ Forall2 keyed avg_temp temp.
Proof.
  unfold load_weather_data. rewrite <- !apply_id_to_fips_Forall2. split.
  - destruct (apply_id_to_fips avg_prec) as [p|e]; [|done]. cbn [bind].
    destruct (apply_id_to_fips avg_temp) as [t|e]; [|done]. cbn [bind].
    by intros [= <- <-].
  - intros [-> ->]. done.
Qed.

(** X7: [load_weather_data] fails with the error of the first rejected
    identifier of the precipitation file, whatever the temperature file
    holds; when the precipitation file is accepted, with the error of the
    first rejected identifier of the temperature file. *)
Theorem load_weather_data_first_error (good rest : weather_csv) id v e :
  (∀ line, line ∈ good → ∃ key, id_to_fips (fst line) = Ok key) →
  id_to_fips id = Raise e →
  (∀ avg_temp, load_weather_data (good ++ (id, v) :: rest) avg_temp = Raise e) ∧
  (∀ avg_prec precip, apply_id_to_fips avg_prec = Ok precip →
     load_weather_data avg_prec (good ++ (id, v) :: rest) = Raise e).
Proof.
  intros Hgood He.
  assert (∃ w, apply_id_to_fips good = Ok w) as [w Hw].
  { clear He. induction good as [|[id' v'] good IH]; [by exists []|].
    destruct (Hgood (id', v')) as [k Hk]; [apply list_elem_of_here|].
    destruct IH as [w Hw]; [intros line Hl; apply Hgood; by apply list_elem_of_further|].
    exists ((k, v') :: w). cbn [apply_id_to_fips]. simpl in Hk. by rewrite Hk, Hw. }
  pose proof (apply_id_to_fips_first_error good id v rest w e Hw He) as Hfail.
  unfold load_weather_data. split.
  - intros avg_temp. by rewrite Hfail.
  - intros avg_prec precip ->. cbn [bind]. by rewrite Hfail.
Qed.

End WeatherTheorems.

Lemma load_weather_data_first_error_witness :
  Pipeline.load_weather_data [("AL-1", Num 50); ("DC-1", Num 40); ("AL3", Num 60)] []
  = Raise (KeyError "DC").
Proof.
  apply (load_weather_data_first_error [("AL-1", Num 50)] [("AL3", Num 60)] "DC-1" (Num 40)).
  - intros line Hl. apply list_elem_of_singleton in Hl as ->. by exists "01001".
  - vm_compute. reflexivity.
Defined.

Section MergeFacts.
Open Scope list_scope.
Import Pipeline.

Lemma elem_of_matches k (right : weather) v :
  v ∈ matches k right ↔ (k, v) ∈ right.
Proof.
  unfold matches. rewrite list_elem_of_fmap. split.
  - intros ([k' v'] & -> & Hin). apply list_elem_of_In, filter_In in Hin as [Hin Hk].
    simpl in Hk. apply String.eqb_eq in Hk as ->. by apply list_elem_of_In.
  - intros Hin. exists (k, v). split; [done|].
    apply list_elem_of_In, filter_In. split; [by apply list_elem_of_In|].
    simpl. apply String.eqb_refl.
Qed.

Lemma matches_nil k (right : weather) :
  matches k right = [] ↔ k ∉ fst <$> right.
Proof.
  split.
  - intros Hm Hin. apply list_elem_of_fmap in Hin as ([k' v] & -> & Hin).
    simpl in Hm. apply elem_of_matches in Hin. rewrite Hm in Hin. by apply elem_of_nil in Hin.
  - intros Hnot. destruct (matches k right) as [|v vs] eqn:E; [done|]. exfalso.
    apply Hnot. assert (v ∈ matches k right) as Hv by (rewrite E; apply list_elem_of_here).
    apply elem_of_matches in Hv. apply list_elem_of_fmap. by exists (k, v).
Qed.

Lemma matches_cons k k' v (right : weather) :
  matches k ((k', v) :: right)
  = if String.eqb k' k then v :: matches k right else matches k right.
Proof. unfold matches. simpl. by destruct (String.eqb k' k). Qed.

(** With distinct keys at most one row matches. *)
Lemma matches_unique k (right : weather) :
  NoDup (fst <$> right) → (length (matches k right) ≤ 1)%nat.
Proof.
  induction right as [|[k' v] right IH]; csimpl; intros Hnd; [unfold matches; simpl; lia|].
  apply NoDup_cons in Hnd as [Hnotin Hnd]. rewrite matches_cons.
  destruct (String.eqb k' k) eqn:E; [|by apply IH].
  apply String.eqb_eq in E as ->.
  rewrite (proj2 (matches_nil k right) Hnotin). simpl. lia.
Qed.

Lemma merge_left_cons {A} (key : A → string) l (left : list A) right :
  merge_left key (l :: left) right
  = match matches (key l) right with
    | [] => [(l, NA)]
    | vs => (λ v, (l, v)) <$> vs
    end ++ merge_left key left right.
Proof. unfold merge_left. by rewrite bind_cons. Qed.

(** With distinct keys the merge adds one value to each left row. *)
Lemma merge_left_unique {A} (key : A → string) (left : list A) right :
  NoDup (fst <$> right) →
  merge_left key left right = (λ l, (l, hd NA (matches (key l) right))) <$> left.
Proof.
  intros Hnd. induction left as [|l left IH]; [done|].
  rewrite merge_left_cons, IH. csimpl.
  pose proof (matches_unique (key l) right Hnd) as Hlen.
  destruct (matches (key l) right) as [|v [|w vs]]; simpl in *; [done|done|lia].
Qed.

Lemma merge_left_length {A} (key : A → string) (left : list A) right :
  length (merge_left key left right)
  = sum_list ((λ l, Nat.max 1 (length (matches (key l) right))) <$> left).
Proof.
  induction left as [|l left IH]; [done|].
  rewrite merge_left_cons, length_app, IH. csimpl. f_equal.
  destruct (matches (key l) right) as [|v vs]; [done|].
  change (length ((λ v0, (l, v0)) <$> v :: vs) = Nat.max 1 (length (v :: vs))).
  rewrite length_fmap. simpl. lia.
Qed.

End MergeFacts.
Section MergeTheorems.
Open Scope list_scope.
Import Pipeline.

Lemma hd_matches_in k (right : weather) v :
  NoDup (fst <$> right) → (k, v) ∈ right → hd NA (matches k right) = v.
Proof.
  intros Hnd Hin. pose proof (matches_unique k right Hnd) as Hlen.
  apply elem_of_matches in Hin.
  destruct (matches k right) as [|w [|w' ws]]; simpl in *; [|  |lia].
  - by apply elem_of_nil in Hin.
  - by apply list_elem_of_singleton in Hin.
Qed.

Lemma hd_matches_notin k (right : weather) :
  k ∉ fst <$> right → hd NA (matches k right) = NA.
Proof. intros H. by rewrite (proj2 (matches_nil k right) H). Qed.

(** X8: when the keys of the right frame are distinct, the left merge
    keeps the left rows as they are, one output row per left row and in
    the same order, and gives each the value of the right row with its
    key, or a missing value when the right frame has no such row. *)
Theorem merge_left_distinct_keys {A : Type} (key : A → string)
    (left : list A) (right : weather) :
  NoDup (fst <$> right) →
  fst <$> merge_left key left right = left ∧
  ∀ i l, left !! i = Some l →
    (∀ v, (key l, v) ∈ right → merge_left key left right !! i = Some (l, v)) ∧
    (key l ∉ fst <$> right → merge_left key left right !! i = Some (l, NA)).
Proof.
  intros Hnd. rewrite (merge_left_unique key left right Hnd). split.
  - rewrite <- list_fmap_compose. apply list_fmap_id.
  - intros i l Hl. rewrite list_lookup_fmap, Hl. cbn [fmap option_fmap option_map].
    split.
    + intros v Hv. by rewrite (hd_matches_in _ _ v Hnd Hv).
    + intros Hnot. by rewrite (hd_matches_notin _ _ Hnot).
Qed.

Lemma matches_two k (right : weather) i j v w :
  i ≠ j → right !! i = Some (k, v) → right !! j = Some (k, w) →
  (2 ≤ length (matches k right))%nat.
Proof.
  revert i j. induction right as [|[k' v'] right IH]; intros i j Hij Hi Hj; [done|].
  rewrite matches_cons. destruct i as [|i], j as [|j]; try done; simpl in Hi, Hj.
  - injection Hi as -> ->. rewrite String.eqb_refl. simpl.
    assert (w ∈ matches k right) as Hw
      by (apply elem_of_matches, list_elem_of_lookup; eauto).
    destruct (matches k right); [by apply elem_of_nil in Hw|simpl; lia].
  - injection Hj as -> ->. rewrite String.eqb_refl. simpl.
    assert (v ∈ matches k right) as Hv
      by (apply elem_of_matches, list_elem_of_lookup; eauto).
    destruct (matches k right); [by apply elem_of_nil in Hv|simpl; lia].
  - assert (2 ≤ length (matches k right))%nat by (apply (IH i j); [lia|done|done]).
    destruct (String.eqb k' k); simpl; lia.
Qed.

Lemma sum_list_max_ge {A} (f : A → nat) (l : list A) :
  (length l ≤ sum_list ((λ x, Nat.max 1 (f x)) <$> l))%nat.
Proof. induction l as [|x l IH]; csimpl; lia. Qed.

Lemma sum_list_max_gt {A} (f : A → nat) (l : list A) x :
  x ∈ l → (2 ≤ f x)%nat → (length l < sum_list ((λ x, Nat.max 1 (f x)) <$> l))%nat.
Proof.
  induction l as [|y l IH]; intros Hx Hf; [by apply elem_of_nil in Hx|].
  csimpl. apply elem_of_cons in Hx as [->|Hx].
  - pose proof (sum_list_max_ge f l). lia.
  - pose proof (IH Hx Hf). lia.
Qed.

(** X9: the merge never loses a left row, and it does not remove
    duplicates: a left row whose key stands in two rows of the right
    frame comes out more than once, so that the output has more rows than
    the left frame. *)
Theorem merge_left_duplicate_keys {A : Type} (key : A → string)
    (left : list A) (right : weather) :
  (length left ≤ length (merge_left key left right))%nat ∧
  ∀ l i j v w,
    l ∈ left → i ≠ j →
    right !! i = Some (key l, v) → right !! j = Some (key l, w) →
    (length left < length (merge_left key left right))%nat.
Proof.
  rewrite merge_left_length. split; [apply sum_list_max_ge|].
  intros l i j v w Hl Hij Hi Hj.
  apply (sum_list_max_gt (λ l, length (matches (key l) right)) left l Hl).
  by apply (matches_two _ _ i j v w).
Qed.

(** X10: the merge invents nothing: every output row is a left row with
    either the value of a right row of the same key or, when no right row
    has its key, a missing value; right rows whose key no left row has do
    not show. *)
Theorem merge_left_values {A : Type} (key : A → string)
    (left : list A) (right : weather) (l : A) (v : cell) :
  (l, v) ∈ merge_left key left right →
  l ∈ left ∧ ((key l, v) ∈ right ∨ (v = NA ∧ key l ∉ fst <$> right)).
Proof.
  unfold merge_left. intros Hin. apply list_elem_of_bind in Hin as (l' & Hin & Hl').
  destruct (matches (key l') right) as [|w ws] eqn:E.
  - apply list_elem_of_singleton in Hin as [= -> ->]. split; [done|]. right.
    split; [done|]. by apply matches_nil.
  - apply list_elem_of_fmap in Hin as (u & [= -> ->] & Hu). split; [done|]. left.
    apply elem_of_matches. by rewrite E.
Qed.

(** X11: when both weather frames have distinct keys, the two merges of
    [main] return the census frame row for row, each row with the
    precipitation and the temperature recorded under its [fips], or
    missing values where the county is absent from a weather frame. *)
Theorem merge_weather_distinct_keys (df : list county_row) (precip temp : weather) :
  NoDup (fst <$> precip) → NoDup (fst <$> temp) →
  dem <$> merge_weather df precip temp = df ∧
  ∀ i row, merge_weather df precip temp !! i = Some row →
    (∀ v, (fips (dem row), v) ∈ precip → avg_precipitation row = v) ∧
    (fips (dem row) ∉ fst <$> precip → avg_precipitation row = NA) ∧
    (∀ v, (fips (dem row), v) ∈ temp → avg_temperature row = v) ∧
    (fips (dem row) ∉ fst <$> temp → avg_temperature row = NA).
Proof.
  intros Hp Ht. unfold merge_weather.
  rewrite (merge_left_unique _ _ temp Ht), (merge_left_unique _ _ precip Hp).
  rewrite <- !list_fmap_compose. split; [apply list_fmap_id|].
  intros i row Hrow. rewrite list_lookup_fmap in Hrow.
  destruct (df !! i) as [l|]; [|done]. injection Hrow as <-. simpl.
  repeat split.
  - intros v Hv. by apply hd_matches_in.
  - by apply hd_matches_notin.
  - intros v Hv. by apply hd_matches_in.
  - by apply hd_matches_notin.
Qed.

End MergeTheorems.

Lemma merge_left_distinct_keys_witness :
  fst <$> Pipeline.merge_left fips
            (Pipeline.load_census_data [Sample.county_A; Sample.county_empty])
            Sample.precip
  = Pipeline.load_census_data [Sample.county_A; Sample.county_empty].
Proof.
  apply (merge_left_distinct_keys fips _ Sample.precip).
  apply (bool_decide_unpack _). vm_compute. reflexivity.
Defined.

Lemma merge_left_values_witness :
  Pipeline.derive Sample.county_A ∈ Pipeline.load_census_data [Sample.county_A] ∧
  (("01001", Num 50) ∈ Sample.precip ∨
   (Num 50 = NA ∧ "01001" ∉ fst <$> Sample.precip)).
Proof.
  apply (merge_left_values fips (Pipeline.load_census_data [Sample.county_A])
           Sample.precip (Pipeline.derive Sample.county_A) (Num 50)).
  vm_compute. apply list_elem_of_here.
Defined.

Lemma merge_weather_distinct_keys_witness :
  dem <$> Pipeline.merge_weather
            (Pipeline.load_census_data [Sample.county_A; Sample.county_empty])
            Sample.precip Sample.temp
  = Pipeline.load_census_data [Sample.county_A; Sample.county_empty].
Proof.
  apply (merge_weather_distinct_keys _ Sample.precip Sample.temp);
    apply (bool_decide_unpack _); vm_compute; reflexivity.
Defined.
(** ** More on percentile ranks *)

Section RankOrder.
Open Scope list_scope.
Open Scope Q_scope.
Import Rank.

Lemma cell_ltb_notna a b : Cell.ltb a b = true → Cell.notna a = true ∧ Cell.notna b = true.
Proof. destruct a, b; simpl; try done. Qed.

Lemma cell_ltb_trans a b c :
  Cell.ltb a b = true → Cell.ltb b c = true → Cell.ltb a c = true.
Proof.
  destruct a as [|s|x], b as [|t|y], c as [|u|z]; simpl; try done;
    try (by repeat (match goal with s : bool |- _ => destruct s end)).
  intros H1 H2. apply Qltb_lt in H1, H2. apply Qltb_lt. lra.
Qed.

Lemma cell_eqb_ltb_r a b c : Cell.eqb a b = true → Cell.ltb a c = Cell.ltb b c.
Proof.
  destruct a as [|s|x], b as [|t|y]; simpl; try done.
  - intros H. apply Bool.eqb_prop in H. by subst.
  - intros H. apply Qeqb_eq in H. destruct c as [|r|z]; simpl; try done.
    destruct (Cell.Qltb x z) eqn:E1, (Cell.Qltb y z) eqn:E2; try done.
    + apply Qltb_lt in E1. apply Qltb_ge in E2. lra.
    + apply Qltb_lt in E2. apply Qltb_ge in E1. lra.
Qed.

Lemma filter_length_disjoint_le {A} (f g h : A → bool) (l : list A) :
  (∀ x, x ∈ l → f x = true → g x = false) →
  (∀ x, x ∈ l → f x = true → h x = true) →
  (∀ x, x ∈ l → g x = true → h x = true) →
  (length (List.filter f l) + length (List.filter g l) ≤ length (List.filter h l))%nat.
Proof.
  induction l as [|x l IH]; intros Hfg Hfh Hgh; simpl; [done|].
  assert (length (List.filter f l) + length (List.filter g l)
          ≤ length (List.filter h l))%nat as IH'.
  { apply IH; intros y Hy; [apply Hfg|apply Hfh|apply Hgh]; by apply list_elem_of_further. }
  pose proof (Hfg x (list_elem_of_here _ _)) as H1.
  pose proof (Hfh x (list_elem_of_here _ _)) as H2.
  pose proof (Hgh x (list_elem_of_here _ _)) as H3.
  destruct (f x), (g x), (h x); simpl; try lia;
    try (by discriminate H1); try (by discriminate H2); by discriminate H3.
Qed.

(** Below a larger value there are all the entries below or equal to a
    smaller one. *)
Lemma n_less_mono col v w :
  Cell.ltb v w = true → (n_less col v + n_equal col v ≤ n_less col w)%nat.
Proof.
  intros Hvw. unfold n_less, n_equal. apply filter_length_disjoint_le.
  - intros c Hc Hlt. apply valid_notna in Hc as [_ Hc].
    destruct (cell_ltb_notna v w Hvw) as [Hv _].
    destruct (cell_trichotomy c v Hc Hv) as [(?&?&?)|[(?&?&?)|(?&?&?)]]; congruence.
  - intros c _ Hlt. by apply (cell_ltb_trans c v w).
  - intros c _ Heq. by rewrite (cell_eqb_ltb_r c v w Heq).
Qed.

Lemma Qdiv_mult_cancel x n : ¬ n == 0 → x / n * n == x.
Proof. intros H. by field. Qed.

Lemma rank_of_lt col v w :
  v ∈ col → w ∈ col → Cell.ltb v w = true →
  average_rank col v / Qn (length (valid col))
  < average_rank col w / Qn (length (valid col)).
Proof.
  intros Hv Hw Hlt. destruct (cell_ltb_notna v w Hlt) as [Hnv Hnw].
  pose proof (n_equal_pos col v Hv Hnv) as Hkv.
  pose proof (n_equal_pos col w Hw Hnw) as Hkw.
  pose proof (n_less_mono col v w Hlt) as Hmono.
  pose proof (n_less_equal_le col w Hnw) as Hle.
  rewrite (average_rank_closed col v Hkv), (average_rank_closed col w Hkw), !Qdiv_2.
  apply Qn_le in Hmono. rewrite Qn_plus in Hmono.
  assert (1 <= Qn (n_equal col v)) by (apply (Qn_le 1); lia).
  assert (1 <= Qn (n_equal col w)) by (apply (Qn_le 1); lia).
  assert (0 < Qn (length (valid col))) as HN by (apply (Qn_lt 0); lia).
  apply Qlt_shift_div_l; [done|].
  rewrite Qdiv_mult_cancel by lra. lra.
Qed.

End RankOrder.
Section RankPerm.
Open Scope list_scope.
Open Scope Q_scope.
Import Rank.

Lemma filter_length_Permutation {A} (f : A → bool) (l l' : list A) :
  l ≡ₚ l' → length (List.filter f l) = length (List.filter f l').
Proof.
  induction 1 as [|x l l' _ IH|x y l|l l' l'' _ IH1 _ IH2]; simpl.
  - done.
  - destruct (f x); simpl; by rewrite IH.
  - destruct (f x), (f y); done.
  - by rewrite IH1.
Qed.

Lemma valid_Permutation col col' : col ≡ₚ col' → valid col ≡ₚ valid col'.
Proof.
  unfold valid. induction 1 as [|x l l' _ IH|x y l|l l' l'' _ IH1 _ IH2]; simpl.
  - done.
  - destruct (Cell.notna x); by rewrite IH.
  - destruct (Cell.notna x), (Cell.notna y); try done. apply perm_swap.
  - by rewrite IH1.
Qed.

Lemma rank_of_Permutation col col' v : col ≡ₚ col' → rank_of col v = rank_of col' v.
Proof.
  intros Hp. apply valid_Permutation in Hp.
  unfold rank_of, average_rank, tied_positions, n_less, n_equal.
  rewrite (filter_length_Permutation _ _ _ Hp).
  rewrite (filter_length_Permutation (λ c, Cell.eqb c v) _ _ Hp).
  by rewrite (Permutation_length Hp).
Qed.

End RankPerm.

Section RankTheorems.
Open Scope list_scope.
Open Scope Q_scope.
Import Rank Pipeline.

(** X12: the percentile rank keeps the order of the values: of two
    entries of a column, the smaller value has the strictly smaller
    rank. *)
Theorem rank_pct_monotone (col : list cell) (i j : nat) (v w : cell) :
  col !! i = Some v → col !! j = Some w → Cell.ltb v w = true →
  ∃ qv qw, rank_pct col !! i = Some (Num qv) ∧
           rank_pct col !! j = Some (Num qw) ∧ qv < qw.
Proof.
  intros Hi Hj Hlt. destruct (cell_ltb_notna v w Hlt) as [Hv Hw].
  rewrite !rank_pct_lookup, Hi, Hj. cbn [fmap option_fmap option_map].
  rewrite (rank_of_Num col v Hv), (rank_of_Num col w Hw).
  eexists _, _. split; [done|]. split; [done|].
  apply rank_of_lt; [apply list_elem_of_lookup; eauto ..|done].
Qed.

(** X13: the ranks and the raw score of a county do not depend on the
    order of the rows of the frame. *)
Theorem rank_row_row_order (df df' : list joined_row) (r : joined_row) :
  df ≡ₚ df' → rank_row df r = rank_row df' r.
Proof.
  intros Hp. unfold rank_row.
  assert (∀ (f : joined_row → cell) v,
            rank_of (f <$> df) v = rank_of (f <$> df') v) as E.
  { intros f v. apply rank_of_Permutation. by apply fmap_Permutation. }
  by rewrite !E.
Qed.

(** X14: a minimum of a column that [k] of its [N] non-missing entries
    share gets the rank (k+1)/(2N), 1/N when it is not tied, and no entry
    of the column has a smaller rank. *)
Theorem rank_pct_minimum (col : list cell) (i : nat) (v : cell) :
  col !! i = Some v → Cell.notna v = true →
  (∀ w, w ∈ col → Cell.ltb w v = false) →
  ∃ q, rank_pct col !! i = Some (Num q) ∧
       q == (Qn (n_equal col v) + 1) / (2 * Qn (length (valid col))) ∧
       (n_equal col v = 1%nat → q == 1 / Qn (length (valid col))) ∧
       ∀ j qw, rank_pct col !! j = Some (Num qw) → q <= qw.
Proof.
  intros Hi Hv Hmin.
  assert (v ∈ col) as Hin by (apply list_elem_of_lookup; eauto).
  pose proof (n_equal_pos col v Hin Hv) as Hk.
  pose proof (n_less_equal_le col v Hv) as Hle.
  assert (0 < Qn (length (valid col))) as HN by (apply (Qn_lt 0); lia).
  assert (n_less col v = 0%nat) as Hless.
  { unfold n_less. rewrite filter_none; [done|]. intros w Hw.
    apply Hmin. by apply valid_notna in Hw as [? _]. }
  rewrite rank_pct_lookup, Hi. cbn [fmap option_fmap option_map].
  rewrite (rank_of_Num col v Hv). eexists. split; [done|].
  assert (average_rank col v / Qn (length (valid col))
          == (Qn (n_equal col v) + 1) / (2 * Qn (length (valid col)))) as Hq.
  { rewrite (average_rank_closed col v Hk), Hless. unfold Qn at 1. simpl. field. lra. }
  split; [done|]. split.
  - intros H1. rewrite Hq, H1. unfold Qn at 1. simpl. field. lra.
  - intros j qw Hj. rewrite rank_pct_lookup in Hj.
    destruct (col !! j) as [w|] eqn:Hw; [|done]. cbn [fmap option_fmap option_map] in Hj.
    assert (w ∈ col) as Hwin by (apply list_elem_of_lookup; eauto).
    destruct (Cell.notna w) eqn:Hnw; [|by destruct w].
    rewrite (rank_of_Num col w Hnw) in Hj. injection Hj as <-.
    destruct (cell_trichotomy v w Hv Hnw) as [(Hlt&_&_)|[(_&Heq&_)|(_&_&Hgt)]].
    + apply Qlt_le_weak. by apply rank_of_lt.
    + pose proof (rank_of_tied col v w Heq) as E.
      rewrite (rank_of_Num col v Hv), (rank_of_Num col w Hnw) in E.
      assert (average_rank col v / Qn (length (valid col))
              = average_rank col w / Qn (length (valid col))) as E' by congruence.
      rewrite E'. apply Qle_refl.
    + rewrite (Hmin w Hwin) in Hgt. done.
Qed.

End RankTheorems.

Lemma rank_pct_monotone_witness :
  ∃ qv qw, Rank.rank_pct [Num 10; NA; Num 20] !! 0%nat = Some (Num qv) ∧
           Rank.rank_pct [Num 10; NA; Num 20] !! 2%nat = Some (Num qw) ∧ (qv < qw)%Q.
Proof.
  apply (rank_pct_monotone [Num 10; NA; Num 20] 0 2 (Num 10) (Num 20)); reflexivity.
Defined.

Lemma rank_row_row_order_witness :
  Pipeline.rank_row (Sample.frame [Sample.county_A; Sample.county_B])
    {| dem := Pipeline.derive Sample.county_A;
       avg_precipitation := Num 50; avg_temperature := Num 65 |}
  = Pipeline.rank_row (Sample.frame [Sample.county_B; Sample.county_A])
      {| dem := Pipeline.derive Sample.county_A;
         avg_precipitation := Num 50; avg_temperature := Num 65 |}.
Proof.
  apply rank_row_row_order. vm_compute. apply perm_swap.
Defined.

Lemma rank_pct_minimum_witness :
  ∃ q, Rank.rank_pct [Num 10; Num 10; Num 20] !! 0%nat = Some (Num q) ∧
       (q == 1 # 2)%Q.
Proof.
  destruct (rank_pct_minimum [Num 10; Num 10; Num 20] 0 (Num 10)) as (q & Hq & Hf & _).
  - reflexivity.
  - reflexivity.
  - intros w Hw. repeat (apply elem_of_cons in Hw as [->|Hw]; [reflexivity|]).
    by apply elem_of_nil in Hw.
  - exists q. split; [exact Hq|]. rewrite Hf. reflexivity.
Defined.

(** ** More on the derived columns and the scores *)

Section DerivedTheorems.
Open Scope list_scope.
Open Scope Q_scope.
Import Scaler Pipeline.

(** X16: on counts that fit together the two ratios are numbers between
    0 and 1: the homeownership rate when 0 <= owner <= occupied and
    occupied > 0, the single-family ratio when 0 <= detached + attached
    <= units and units > 0. *)
Theorem derive_ratios_unit_interval (r : census_row) (o t d a u : Q) :
  owner_occupied_units r = Num o → total_occupied_units r = Num t →
  sf_detached r = Num d → sf_attached r = Num a → total_housing_units r = Num u →
  0 <= o <= t → 0 < t → 0 <= d + a <= u → 0 < u →
  (∃ q, homeownership_rate (derive r) = Num q ∧ q == o / t ∧ 0 <= q <= 1) ∧
  (∃ q, sf_ratio (derive r) = Num q ∧ q == (d + a) / u ∧ 0 <= q <= 1).
Proof.
  intros Ho Ht Hd Ha Hu Hot Htpos Hda Hupos. unfold derive.
  cbn [homeownership_rate sf_ratio]. rewrite Ho, Ht, Hd, Ha, Hu.
  cbn [Cell.add Cell.div Cell.replace_zero_na].
  rewrite (proj2 (Qeqb_neq t 0)) by lra. rewrite (proj2 (Qeqb_neq u 0)) by lra.
  cbn [Cell.div]. rewrite (proj2 (Qeqb_neq u 0)) by lra.
  split; eexists; (split; [reflexivity|]); (split; [reflexivity|]); split.
  - apply Qle_shift_div_l; lra.
  - apply Qle_shift_div_r; lra.
  - apply Qle_shift_div_l; lra.
  - apply Qle_shift_div_r; lra.
Qed.

Lemma is_count_finite c : is_count c → finite_or_na c.
Proof. by intros [->|(n & _ & ->)]. Qed.

(** X17: the single-family ratio is never infinite when each of the
    three unit counts is missing or a whole number from 0 to below 2^53
    (the counts binary64 holds exactly), the zero denominator having been
    replaced; nor is then the adjusted population of a county whose
    population is such a count. *)
Theorem sf_ratio_never_infinite (r : census_row) :
  is_count (sf_detached r) → is_count (sf_attached r) →
  is_count (total_housing_units r) →
  finite_or_na (sf_ratio (derive r)) ∧
  ∀ j, dem j = derive r → is_count (total_population r) →
       finite_or_na (adj_population_of j).
Proof.
  intros Hd Ha Hu.
  apply is_count_finite in Hd, Ha, Hu.
  assert (finite_or_na (sf_ratio (derive r))) as Hsf.
  { unfold derive. cbn [sf_ratio].
    destruct (sf_detached r) as [| |d]; [done|done|];
    destruct (sf_attached r) as [| |a]; [done|done|];
    destruct (total_housing_units r) as [| |u]; [done|done|].
    cbn [Cell.add Cell.replace_zero_na].
    destruct (Qeq_bool u 0) eqn:E; cbn [Cell.div]; [done|]. by rewrite E. }
  split; [done|]. intros j Hj Hp. apply is_count_finite in Hp.
  unfold adj_population_of. rewrite Hj.
  change (census (derive r)) with r.
  destruct (total_population r) as [| |p]; [done|destruct Hp|].
  destruct (sf_ratio (derive r)); done.
Qed.

(** X18: census rows whose state codes have the same width get the same
    [fips] only when they have the same state code and the same county
    code. *)
Theorem fips_distinct (r1 r2 : census_row) :
  String.length (state r1) = String.length (state r2) →
  fips (derive r1) = fips (derive r2) →
  state r1 = state r2 ∧ county r1 = county r2.
Proof. intros Hl Hf. by apply append_inj_length. Qed.

End DerivedTheorems.

Lemma derive_ratios_unit_interval_witness :
  (∃ q, homeownership_rate (Pipeline.derive Sample.county_A) = Num q ∧
        (q == 200 / 400)%Q ∧ (0 <= q <= 1)%Q) ∧
  (∃ q, sf_ratio (Pipeline.derive Sample.county_A) = Num q ∧
        (q == (300 + 0) / 500)%Q ∧ (0 <= q <= 1)%Q).
Proof.
  apply (derive_ratios_unit_interval Sample.county_A 200 400 300 0 500);
    try reflexivity; lra.
Defined.

Lemma sf_ratio_never_infinite_witness :
  Scaler.finite_or_na (sf_ratio (Pipeline.derive Sample.county_empty)).
Proof.
  apply (sf_ratio_never_infinite Sample.county_empty);
    right; exists 0%Z; (split; [lia|reflexivity]).
Defined.

Lemma fips_distinct_witness :
  state Sample.county_A = state (Sample.row "A, later" "001" 1 2 3 4 5 6 7 8) ∧
  county Sample.county_A = county (Sample.row "A, later" "001" 1 2 3 4 5 6 7 8).
Proof.
  apply (fips_distinct Sample.county_A (Sample.row "A, later" "001" 1 2 3 4 5 6 7 8));
    reflexivity.
Defined.
Section ScoreTheorems.
Open Scope list_scope.
Open Scope Q_scope.
Import Scaler Pipeline.

(** X19: [calculate_scores] fails on the frame without rows, where the
    scaler refuses the empty column, and on no other frame. *)
Theorem calculate_scores_fails_iff_empty (df : list joined_row) (e : exn) :
  calculate_scores df = Raise e ↔ df = [] ∧ e = ValueError.
Proof.
  split.
  - destruct df as [|r df]; [by intros [= <-]|].
    by rewrite calculate_scores_ok.
  - by intros [-> ->].
Qed.

Lemma scored_joined df :
  joined <$> zip_with set_score (rank_row df <$> df)
               (transform_cell (partial_fit (raw_column df)) <$> raw_column df)
  = df.
Proof.
  apply list_eq. intros i. rewrite list_lookup_fmap.
  destruct (df !! i) as [r|] eqn:Hr.
  - rewrite (proj2 (scored_lookup df i _) (ex_intro _ r (conj Hr eq_refl))). done.
  - destruct (zip_with _ _ _ !! i) as [row|] eqn:Hrow; [|done].
    apply scored_lookup in Hrow as (r & Hr' & _). congruence.
Qed.

(** X20: [calculate_scores] adds columns and touches nothing else: the
    frame it returns has the rows of its argument, in the same order, with
    their input columns unchanged. *)
Theorem calculate_scores_keeps_rows (df : list joined_row) (out : list scored_row) :
  calculate_scores df = Ok out → joined <$> out = df.
Proof.
  destruct (decide (df = [])) as [->|Hne]; [done|].
  rewrite (calculate_scores_ok df Hne). intros [= <-]. apply scored_joined.
Qed.

(** X21: the rescaling keeps the order of the raw scores: of two scored
    records the one with the smaller or equal raw score has the smaller
    or equal final score. *)
Theorem final_score_monotone (df : list joined_row) (out : list scored_row)
    (i j : nat) (ri rj : scored_row) (a b : Q) :
  calculate_scores df = Ok out →
  out !! i = Some ri → out !! j = Some rj →
  pest_sales_score_raw ri = Num a → pest_sales_score_raw rj = Num b →
  a <= b →
  ∃ ya yb, pest_sales_score ri = Num ya ∧ pest_sales_score rj = Num yb ∧
           ya <= yb.
Proof.
  intros Hout Hi Hj Ha Hb Hab.
  assert (df ≠ []) as Hne by (intros ->; done).
  rewrite (calculate_scores_ok df Hne) in Hout. injection Hout as <-.
  assert (raw_column df ≠ []) as Hne' by (unfold raw_column; by destruct df).
  destruct (fit_transform_spec _ Hne' (raw_column_finite df))
    as (Y & HY & _ & _ & Hnum).
  rewrite fit_transform_ok in HY by (done || apply raw_column_finite).
  injection HY as <-. pose proof ten_eps_pos as Hpos.
  apply scored_lookup in Hi as (r1 & Hr1 & ->).
  apply scored_lookup in Hj as (r2 & Hr2 & ->).
  cbn [set_score pest_sales_score_raw pest_sales_score] in *.
  destruct (Hnum i a) as (m & M & ya & Hmin & Hmax & Hma & _ & _ & Hya & Hca).
  { by rewrite (raw_column_lookup_Some df i r1 Hr1), Ha. }
  destruct (Hnum j b) as (m' & M' & yb & Hmin' & Hmax' & Hmb & _ & _ & Hyb & Hcb).
  { by rewrite (raw_column_lookup_Some df j r2 Hr2), Hb. }
  rewrite Hmin in Hmin'. rewrite Hmax in Hmax'.
  assert (m' = m) as -> by congruence. assert (M' = M) as -> by congruence.
  rewrite list_lookup_fmap, (raw_column_lookup_Some df i r1 Hr1) in Hya.
  rewrite list_lookup_fmap, (raw_column_lookup_Some df j r2 Hr2) in Hyb.
  cbn [fmap option_fmap option_map] in Hya, Hyb.
  assert (transform_cell (partial_fit (raw_column df))
            (pest_sales_score_raw (rank_row df r1)) = Num ya) as -> by congruence.
  assert (transform_cell (partial_fit (raw_column df))
            (pest_sales_score_raw (rank_row df r2)) = Num yb) as -> by congruence.
  exists ya, yb. split; [done|]. split; [done|].
  destruct Hca as [[E Ea]|[Hge Ea]], Hcb as [[E' Eb]|[Hge' Eb]]; try lra.
  rewrite Ea, Eb.
  apply Qle_shift_div_l; [lra|]. rewrite Qdiv_mult_cancel by lra. lra.
Qed.

End ScoreTheorems.

Lemma calculate_scores_keeps_rows_witness :
  ∃ out, Pipeline.calculate_scores Sample.frame_AB = Ok out ∧
         joined <$> out = Sample.frame_AB.
Proof.
  destruct (Pipeline.calculate_scores Sample.frame_AB) as [out|e] eqn:E;
    [|by vm_compute in E].
  exists out. split; [reflexivity|].
  exact (calculate_scores_keeps_rows Sample.frame_AB out E).
Defined.

Lemma final_score_monotone_witness :
  ∃ ya yb,
    (pest_sales_score <$> Sample.scored_AB !! 0%nat) = Some (Num ya) ∧
    (pest_sales_score <$> Sample.scored_AB !! 1%nat) = Some (Num yb) ∧
    (ya <= yb)%Q.
Proof.
  edestruct (final_score_monotone Sample.frame_AB Sample.scored_AB 0 1)
    as (ya & yb & Hya & Hyb & Hle);
    [vm_compute; reflexivity ..|vm_compute; discriminate|].
  exists ya, yb. split; [vm_compute in Hya |- *; by rewrite Hya|].
  split; [vm_compute in Hyb |- *; by rewrite Hyb|]. exact Hle.
Defined.
Section RawTheorems.
Open Scope list_scope.
Open Scope Q_scope.
Import Scaler Pipeline.

Lemma rank_of_column_bounds {A} (f : A → cell) (l : list A) (x : A) :
  x ∈ l →
  Rank.rank_of (f <$> l) (f x) = NA ∧ f x = NA ∨
  ∃ q, Rank.rank_of (f <$> l) (f x) = Num q ∧ 0 < q <= 1 ∧ Cell.notna (f x) = true.
Proof.
  intros Hx. destruct (Cell.notna (f x)) eqn:Hn.
  - right. rewrite (rank_of_Num _ _ Hn). eexists. split; [done|]. split; [|done].
    apply average_rank_bounds; [|done]. apply list_elem_of_fmap. eauto.
  - left. destruct (f x); done.
Qed.

Lemma mul_Num x w : Cell.mul (Num x) (Num w) = Num (x * w).
Proof. done. Qed.

Lemma add_Num x y : Cell.add (Num x) (Num y) = Num (x + y).
Proof. done. Qed.

Lemma sub_NA_iff a c : Cell.sub (Num a) c = NA ↔ c = NA.
Proof. destruct c as [|s|x]; simpl; try done. Qed.

(** X22: a raw score is a number above 0 and at most 1.3, the sum of the
    seven weights; it is missing exactly when one of the seven weighted
    columns of the row (home age, precipitation, temperature,
    single-family ratio, income, adjusted population, homeownership rate)
    is missing, and then the final score is missing as well. *)
Theorem raw_score_bounds (df : list joined_row) (out : list scored_row)
    (i : nat) (row : scored_row) :
  calculate_scores df = Ok out → out !! i = Some row →
  (pest_sales_score_raw row = NA ↔
     home_age row = NA ∨ avg_precipitation (joined row) = NA ∨
     avg_temperature (joined row) = NA ∨ sf_ratio (dem (joined row)) = NA ∨
     median_household_income (census (dem (joined row))) = NA ∨
     adj_population row = NA ∨ homeownership_rate (dem (joined row)) = NA) ∧
  (pest_sales_score_raw row = NA → pest_sales_score row = NA) ∧
  (∀ x, pest_sales_score_raw row = Num x → 0 < x <= 13 # 10).
Proof.
  intros Hout Hrow.
  assert (df ≠ []) as Hne by (intros ->; done).
  rewrite (calculate_scores_ok df Hne) in Hout. injection Hout as <-.
  apply scored_lookup in Hrow as (r & Hr & ->).
  assert (r ∈ df) as Hin by (apply list_elem_of_lookup; eauto).
  cbn [set_score pest_sales_score_raw pest_sales_score joined home_age adj_population].
  unfold rank_row.
  cbn [pest_sales_score_raw joined home_age adj_population].
  destruct (rank_of_column_bounds home_age_of df r Hin) as [[-> Ea]|(a & -> & Ha & Ea)];
  destruct (rank_of_column_bounds avg_precipitation df r Hin) as [[-> Eb]|(b & -> & Hb & Eb)];
  destruct (rank_of_column_bounds avg_temperature df r Hin) as [[-> Ec]|(c & -> & Hc & Ec)];
  destruct (rank_of_column_bounds (λ x, sf_ratio (dem x)) df r Hin)
    as [[-> Ed]|(d & -> & Hd & Ed)];
  destruct (rank_of_column_bounds (λ x, median_household_income (census (dem x))) df r Hin)
    as [[-> Ee]|(e & -> & He & Ee)];
  destruct (rank_of_column_bounds adj_population_of df r Hin) as [[-> Ef]|(f & -> & Hf & Ef)];
  destruct (rank_of_column_bounds (λ x, homeownership_rate (dem x)) df r Hin)
    as [[-> Eg]|(g & -> & Hg & Eg)];
  cbn beta in *;
  try (rewrite raw_score_NA by tauto;
       split; [split; [tauto|done]|]; split; [done|]; intros x Hx; discriminate Hx).
  unfold raw_score. rewrite !mul_Num, !add_Num. split; [|split].
  - split; [done|]. intros [E|[E|[E|[E|[E|[E|E]]]]]];
      rewrite E in *; discriminate.
  - done.
  - intros x [= <-]. lra.
Qed.

End RawTheorems.

Lemma raw_score_bounds_witness :
  ∃ row, Sample.scored_AB !! 0%nat = Some row ∧
    ∀ x, pest_sales_score_raw row = Num x → (0 < x <= 13 # 10)%Q.
Proof.
  destruct (Sample.scored_AB !! 0%nat) as [row|] eqn:Hrow; [|by vm_compute in Hrow].
  exists row. split; [reflexivity|].
  apply (raw_score_bounds Sample.frame_AB Sample.scored_AB 0 row);
    [vm_compute; reflexivity|exact Hrow].
Defined.
(** ** The pipeline of [main] and the state filter *)

Section MainTheorems.
Open Scope list_scope.
Import Scaler Pipeline.

Lemma merge_left_not_nil {A} (key : A → string) (left : list A) right :
  left ≠ [] → merge_left key left right ≠ [].
Proof.
  destruct left as [|l left]; [done|]. intros _. rewrite merge_left_cons.
  by destruct (matches (key l) right).
Qed.

Lemma merge_weather_nil_iff df precip temp :
  merge_weather df precip temp = [] ↔ df = [].
Proof.
  split; [|by intros ->].
  intros H. destruct (decide (df = [])) as [|Hne]; [done|]. exfalso.
  unfold merge_weather in H. apply fmap_nil_inv in H.
  revert H. by apply merge_left_not_nil, merge_left_not_nil.
Qed.

(** X23: once the census rows are fetched and the two weather files
    are read, the rest of the data path of [main] (the identifiers of
    [load_weather_data], the two merges, [calculate_scores]) returns
    unless an identifier of a weather file is rejected, when it fails
    with the error of [load_weather_data], or, the files being accepted,
    the census frame has no rows, when it fails with the scaler's error. *)
Theorem main_fails_iff (rows : list census_row) (avg_prec avg_temp : weather_csv)
    (e : exn) :
  main rows avg_prec avg_temp = Raise e ↔
  load_weather_data avg_prec avg_temp = Raise e ∨
  (∃ frames, load_weather_data avg_prec avg_temp = Ok frames) ∧
  rows = [] ∧ e = ValueError.
Proof.
  unfold main.
  destruct (load_weather_data avg_prec avg_temp) as [[precip temp]|e'] eqn:Hload;
    cbn [bind].
  - destruct rows as [|r rows].
    + split; [intros [= <-]; right; eauto|]. by intros [?|(_ & _ & ->)].
    + rewrite calculate_scores_ok.
      2:{ intros H. by apply merge_weather_nil_iff in H. }
      split; [done|]. by intros [?|(_ & ? & _)].
  - split; [intros [= ->]; by left|]. by intros [[= ->]|([? ?] & _)].
Qed.

(** X24: without weather data nothing is scored: when both weather
    files are empty, [main] returns one row per census row and every raw
    score and every final score is missing. *)
Theorem main_without_weather (rows : list census_row) :
  rows ≠ [] →
  ∃ out, main rows [] [] = Ok out ∧
    census ∘ dem ∘ joined <$> out = rows ∧
    ∀ row, row ∈ out →
      avg_precipitation (joined row) = NA ∧ avg_temperature (joined row) = NA ∧
      pest_sales_score_raw row = NA ∧ pest_sales_score row = NA.
Proof.
  intros Hne. unfold main. cbn [load_weather_data apply_id_to_fips bind].
  assert (merge_weather (load_census_data rows) [] []
          = (λ l, {| dem := l; avg_precipitation := NA; avg_temperature := NA |})
              <$> load_census_data rows) as Hmw.
  { unfold merge_weather. rewrite !merge_left_nil, <- !list_fmap_compose. done. }
  set (df := merge_weather (load_census_data rows) [] []) in *.
  assert (df ≠ []) as Hdf.
  { rewrite Hmw. unfold load_census_data. by destruct rows. }
  eexists. split; [by apply calculate_scores_ok|]. split.
  - apply list_eq. intros i. rewrite list_lookup_fmap.
    destruct (rows !! i) as [c|] eqn:Hc.
    + assert (df !! i = Some {| dem := derive c; avg_precipitation := NA;
                                avg_temperature := NA |}) as Hi.
      { rewrite Hmw. unfold load_census_data. by rewrite !list_lookup_fmap, Hc. }
      rewrite (proj2 (scored_lookup df i _) (ex_intro _ _ (conj Hi eq_refl))). done.
    + destruct (zip_with _ _ _ !! i) as [row|] eqn:Hrow; [|done].
      apply scored_lookup in Hrow as (r & Hr & _).
      rewrite Hmw in Hr. unfold load_census_data in Hr.
      rewrite !list_lookup_fmap, Hc in Hr. done.
  - intros row Hrow. apply list_elem_of_lookup in Hrow as [i Hrow].
    apply scored_lookup in Hrow as (r & Hr & ->).
    assert (avg_precipitation r = NA ∧ avg_temperature r = NA) as [Hp Ht].
    { rewrite Hmw in Hr. rewrite list_lookup_fmap in Hr.
      destruct (load_census_data rows !! i); [|done]. by injection Hr as <-. }
    cbn [set_score joined pest_sales_score_raw pest_sales_score].
    assert (pest_sales_score_raw (rank_row df r) = NA) as ->; [|done].
    unfold rank_row. cbn [pest_sales_score_raw]. apply raw_score_NA.
    right. left. by rewrite Hp.
Qed.

(** X26: when the weather files are accepted and no key occurs twice
    in a weather frame, [main] returns on every census frame with rows,
    and its frame has the census rows, one output row each and in their
    order. *)
Theorem main_one_row_per_county (rows : list census_row)
    (avg_prec avg_temp : weather_csv) (precip temp : weather) :
  load_weather_data avg_prec avg_temp = Ok (precip, temp) →
  NoDup (fst <$> precip) → NoDup (fst <$> temp) → rows ≠ [] →
  ∃ out, main rows avg_prec avg_temp = Ok out ∧
         census ∘ dem ∘ joined <$> out = rows.
Proof.
  intros Hload Hp Ht Hne. unfold main. rewrite Hload. cbn [bind].
  assert (dem <$> merge_weather (load_census_data rows) precip temp
          = load_census_data rows) as Hdem.
  { unfold merge_weather.
    rewrite (merge_left_unique _ _ temp Ht), (merge_left_unique _ _ precip Hp).
    rewrite <- !list_fmap_compose. apply list_fmap_id. }
  eexists. split.
  - apply calculate_scores_ok. intros H. apply merge_weather_nil_iff in H.
    unfold load_census_data in H. by destruct rows.
  - rewrite (list_fmap_compose joined), scored_joined.
    rewrite (list_fmap_compose dem), Hdem.
    unfold load_census_data. rewrite <- list_fmap_compose. apply list_fmap_id.
Qed.

End MainTheorems.

Lemma main_without_weather_witness :
  ∃ out, Pipeline.main [Sample.county_A; Sample.county_B] [] [] = Ok out ∧
    census ∘ dem ∘ joined <$> out = [Sample.county_A; Sample.county_B] ∧
    ∀ row, row ∈ out →
      avg_precipitation (joined row) = NA ∧ avg_temperature (joined row) = NA ∧
      pest_sales_score_raw row = NA ∧ pest_sales_score row = NA.
Proof. apply (main_without_weather [Sample.county_A; Sample.county_B]). done. Defined.

Lemma main_one_row_per_county_witness :
  ∃ out, Pipeline.main [Sample.county_A; Sample.county_B]
           Sample.avg_prec Sample.avg_temp = Ok out ∧
         census ∘ dem ∘ joined <$> out = [Sample.county_A; Sample.county_B].
Proof.
  apply (main_one_row_per_county _ _ _ Sample.precip Sample.temp);
    [vm_compute; reflexivity
    |apply (bool_decide_unpack _); vm_compute; reflexivity
    |apply (bool_decide_unpack _); vm_compute; reflexivity
    |done].
Defined.

Section ViewTheorems.
Open Scope list_scope.
Import View.

(** X25: the state filter.  "All States" shows the whole frame; any
    other choice shows, in the order of the frame and with the scores
    computed on the whole frame, exactly the rows whose state code the
    table names so; a row whose state code is not in the table is in no
    such view. *)
Theorem filtered_df_rows (selected_state : string) (df : list scored_row) :
  filtered_df "All States" df = df ∧
  (selected_state ≠ "All States" →
   sublist (filtered_df selected_state df) df ∧
   ∀ r, r ∈ filtered_df selected_state df ↔
        r ∈ df ∧ state_name r = Some selected_state) ∧
  (∀ r, state_name r = None → selected_state ≠ "All States" →
        r ∉ filtered_df selected_state df).
Proof.
  assert (selected_state ≠ "All States" →
          ∀ r, r ∈ filtered_df selected_state df ↔
               r ∈ df ∧ state_name r = Some selected_state) as Hiff.
  { intros Hsel r. unfold filtered_df.
    rewrite (proj2 (String.eqb_neq _ _) Hsel). cbn [negb].
    rewrite list_elem_of_In, filter_In, <- list_elem_of_In. unfold name_is.
    destruct (state_name r) as [n|]; [|split; intros [? ?]; done].
    rewrite String.eqb_eq. split; intros [? ?]; split; congruence. }
  split; [done|]. split.
  - intros Hsel. split; [|by apply Hiff].
    unfold filtered_df. rewrite (proj2 (String.eqb_neq _ _) Hsel). cbn [negb].
    clear Hiff. induction df as [|r df IH]; cbn [List.filter]; [apply sublist_nil|].
    destruct (name_is selected_state r); [by apply sublist_skip|by apply sublist_cons].
  - intros r Hnone Hsel Hin. apply (Hiff Hsel) in Hin as [_ Hin]. congruence.
Qed.

End ViewTheorems.
